(** * Cascading picklists: the rule engine of [cascading.service.ts]

    A shallow embedding of [CascadingFieldsService] and
    [CascadeValidationService] and the properties of the cascade
    specification that were checked against them.

    Conventions of the embedding.
    - A JavaScript object used as a record of string keys is the list of its
      own entries in the order [Object.entries] enumerates them ([Obj]).
      Property reads are own-property reads; a write to an existing key keeps
      the key's position, a write to a new key appends it.
    - An array of strings is a [list string].
    - An [async] method is a function of the state of the collaborators; it
      returns an [Outcome] ([Throw] is a rejected promise) together with the
      new state and the calls it made on the collaborators.
    - The host form service is a set of operations over an abstract state
      [H]: the reads are functions of the state, the writes transform it.
      The calls on the form service resolve; the one collaborator call whose
      rejection is part of the model is [hintFieldValue].  A property read
      on [undefined] is a [TypeError].
    - Keys are field reference names and field values, none of them an
      array index, so the order of the entries is the order of insertion.
      A read [o[k]] that the code guards with [hasOwnProperty], or makes on
      an object it has just filled, is the read of an own property.  The
      two reads it does not guard (lines 115-116 and 122) go through the
      prototype of the object: what a plain object inherits there is given
      by the [Realm]. *)

From Stdlib Require Import List String Bool Arith Lia Permutation.
Import ListNotations.
Local Open Scope string_scope.
Local Open Scope list_scope.

(** ** JavaScript values and objects *)

Module Js.

(** The values that can sit where the code expects a [string[]]: the entry of
    a cascade definition is a string flag or an array of strings, a property
    read of a key that is not there gives [undefined], and a read that
    reaches the prototype gives some other value (a function, an object that
    is not an array, a number), known by a name. *)
Inductive Value : Type :=
  | Undefined
  | Str (s : string)
  | Arr (l : list string)
  | Other (name : string).

(** What a plain object inherits.  [inherits k] says that [Object.prototype]
    has a member named [k]: an object without an own property [k] then reads
    that member at [o[k]], the value [Other k].  [memberProperty k p] is the
    read [m[p]] on the member [m] named [k]; it is [None] when the read
    throws, a [TypeError], as the poisoned accessors of a function do. *)
Class Realm : Type := {
  inherits : string -> bool;
  memberProperty : string -> string -> option Value
}.

Definition Obj (A : Type) : Type := list (string * A).

Definition keys {A} (o : Obj A) : list string := map fst o.
Definition values {A} (o : Obj A) : list A := map snd o.
Definition entries {A} (o : Obj A) : list (string * A) := o.

(** [o[k]] for an own property, [None] standing for [undefined]. *)
Fixpoint get {A} (o : Obj A) (k : string) : option A :=
  match o with
  | [] => None
  | (k', v) :: rest => if String.eqb k' k then Some v else get rest k
  end.

Definition hasOwnProperty {A} (o : Obj A) (k : string) : bool :=
  match get o k with Some _ => true | None => false end.

(** [o[k] = v]. *)
Fixpoint set {A} (o : Obj A) (k : string) (v : A) : Obj A :=
  match o with
  | [] => [(k, v)]
  | (k', v') :: rest =>
      if String.eqb k' k then (k', v) :: rest else (k', v') :: set rest k v
  end.

(** [Array.prototype.includes] on strings. *)
Definition includes (l : list string) (x : string) : bool :=
  existsb (String.eqb x) l.

(** [!s] for a value that is a string or absent. *)
Definition falsy (s : option string) : bool :=
  match s with
  | None => true
  | Some v => String.eqb v ""
  end.

End Js.

(** ** The lodash functions the service imports

    Modelled from their documented behaviour: [uniq] keeps the first
    occurrence of every value, [flatten] removes one level of nesting,
    [intersection] keeps, in the order of the first array and once each, the
    values of the first array that every other array has; an argument that is
    not an array counts as the empty array, and the result is empty when the
    first argument is not an array. *)

Module Lodash.
Import Js.

Definition uniq (l : list string) : list string :=
  fold_left (fun result value =>
               if includes result value then result else result ++ [value])
            l [].

Definition flatten {A} (l : list (list A)) : list A := List.concat l.

Definition castArrayLikeObject (v : Value) : list string :=
  match v with
  | Arr l => l
  | _ => []
  end.

Definition baseIntersection (first other : list string) : list string :=
  fold_left (fun result value =>
               if includes result value then result
               else if includes other value then result ++ [value]
               else result)
            first [].

Definition intersection (a b : Value) : list string :=
  match a with
  | Arr first => baseIntersection first (castArrayLikeObject b)
  | _ => []
  end.

End Lodash.

(** ** Outcomes of asynchronous calls *)

Inductive Error : Type :=
  | TypeError          (* a property read on [undefined] *)
  | Rejected (reason : string).   (* a collaborator's promise was rejected *)

Inductive Outcome (A : Type) : Type :=
  | Ok (a : A)
  | Throw (e : Error).
Arguments Ok {A} a.
Arguments Throw {A} e.

(** ** Data model ([types.ts]) *)

(** A cascade definition: dependent field (or reserved key) to its entry. *)
Definition CascadeDefinition : Type := Js.Obj Js.Value.
(** The rule set of one parent field: parent value to cascade definition. *)
Definition CascadeRuleSet : Type := Js.Obj CascadeDefinition.
Definition CascadeConfiguration : Type := Js.Obj CascadeRuleSet.

Record ICascade : Type := mkCascade {
  alters : list string;
  cascades : CascadeRuleSet
}.

Definition CascadeMap : Type := Js.Obj ICascade.
Definition FieldOptions : Type := Js.Obj Js.Value.

(** ** The collaborators ([IWorkItemFormService], [HintService])

    [H] is the state of the form and of the hint service.  The reads return
    what the host reports in that state; [getAllowedFieldValues] is taken
    after the [toString] of line 119. *)

Class WorkItemFormService (H : Type) : Type := {
  getFieldValue : H -> string -> option string;
  getAllowedFieldValues : H -> string -> list string;
  getFilteredAllowedFieldValues : H -> string -> list string;
  filterAllowedFieldValues : string -> Js.Value -> H -> H;
  setError : string -> H -> H;
  clearError : H -> H
}.

(** The hint service lives in [hints.service.ts]; the engine only awaits its
    [hintFieldValue], which resolves or rejects and may act on the form. *)
Class HintService (H : Type) : Type := {
  hintFieldValue : CascadeMap -> string -> option string -> H -> Outcome unit * H
}.

(** The calls that act on the collaborators, in the order they are made. *)
Inductive Call : Type :=
  | ClearError
  | HintFieldValue (fieldName : string) (fieldValue : option string)
  | FilterAllowedFieldValues (fieldName : string) (values : Js.Value)
  | SetError (message : string).

Record World (H : Type) : Type := mkWorld {
  host : H;
  calls : list Call
}.
Arguments mkWorld {H} host calls.
Arguments host {H} w.
Arguments calls {H} w.

(** The state-and-rejection monad of the [async] methods. *)
Module Async.
Section Async.
Context {H : Type}.

Definition M (A : Type) : Type := World H -> Outcome A * World H.

Definition ret {A} (a : A) : M A := fun w => (Ok a, w).

Definition bind {A B} (m : M A) (f : A -> M B) : M B :=
  fun w =>
    match m w with
    | (Ok a, w') => f a w'
    | (Throw e, w') => (Throw e, w')
    end.

(** A read of the host, a settled outcome, a call that changes the host, and
    a call that may be rejected. *)
Definition read {A} (f : H -> A) : M A := fun w => (Ok (f (host w)), w).
Definition lift {A} (o : Outcome A) : M A := fun w => (o, w).
Definition act (c : Call) (f : H -> H) : M unit :=
  fun w => (Ok tt, mkWorld (f (host w)) (calls w ++ [c])).
Definition attempt (c : Call) (f : H -> Outcome unit * H) : M unit :=
  fun w => let (o, h') := f (host w) in (o, mkWorld h' (calls w ++ [c])).

End Async.
End Async.

Notation "x <- m ;; k" := (Async.bind m (fun x => k))
  (at level 61, m at next level, right associativity).
Notation "m ;;; k" := (Async.bind m (fun _ => k))
  (at level 61, right associativity).

(** ** [CascadingFieldsService] *)

Section CascadingFieldsService.
Import Js Lodash.

(** [types.ts] is taken as given: the reserved keys of a cascade definition
    and the string of the flag [FieldOptionsFlags.All]. *)
Variable RESERVED_FIELD_NAMES : list string.
Variable FieldOptionsFlags_All : string.

Context {H : Type} {workItemService : WorkItemFormService H}
        {hintService : HintService H} {realm : Realm}.

Definition notReserved (field : string) : bool :=
  negb (includes RESERVED_FIELD_NAMES field).

(** Lines 39-63.  [None] is an [undefined] configuration. *)
Definition createCascadingMap
    (cascadeConfiguration : option CascadeConfiguration) : CascadeMap :=
  match cascadeConfiguration with
  | None => []
  | Some configuration =>
      fold_left
        (fun (cascadeMap : CascadeMap) '(fieldName, fieldValues) =>
           let alters :=
             fold_left
               (fun alters cascadeDefinitions =>
                  alters ++ filter notReserved (keys cascadeDefinitions))
               (values fieldValues) [] in
           let alters := uniq alters in
           set cascadeMap fieldName (mkCascade alters fieldValues))
        (entries configuration) []
  end.

(** The property key a value is converted to when it indexes an object. *)
Definition propertyKey (fieldValue : option string) : string :=
  match fieldValue with
  | Some v => v
  | None => "undefined"
  end.

(** The rest of the service reads [this.cascadeMap]. *)
Variable cascadeMap : CascadeMap.

(** Lines 65-79.  Reading [.cascades] of a parent that is not in the map is
    a [TypeError]. *)
Definition getAffectedFields (fieldReferenceName : string)
    (fieldValue : option string) : Outcome (list string) :=
  match get cascadeMap fieldReferenceName with
  | None => Throw TypeError
  | Some cascade =>
      if falsy fieldValue then
        Ok (filter notReserved
              (uniq (flat_map (fun cascade => keys cascade)
                              (values (cascades cascade)))))
      else
        match get (cascades cascade) (propertyKey fieldValue) with
        | Some definition => Ok (filter notReserved (keys definition))
        | None => Ok []
        end
  end.

(** Lines 81-86. *)
Definition validateFilter (h : H) (fieldReferenceName : string) : bool :=
  let allowedValues := getFilteredAllowedFieldValues h fieldReferenceName in
  let fieldValue := getFieldValue h fieldReferenceName in
  falsy fieldValue || includes allowedValues (propertyKey fieldValue).

(** *** [prepareCascadeOptions], lines 103-137

    One task per pair of an affected field and an entry of the cascade map
    (lines 108-109).  A task whose parent alters the field reads the parent's
    value, takes its options (lines 111-123) and merges them into
    [fieldValues] (lines 125-129); the merge has no [await] in it, so tasks
    merge one at a time, in the order their reads resolve. *)

Definition Task : Type := string * (string * ICascade).

Definition cascadeTasks (affectedFields : list string) : list Task :=
  flatten (map (fun field => map (fun entry => (field, entry))
                                 (entries cascadeMap))
               affectedFields).

(** [cascade.cascades[fieldValue]]: a cascade definition of the rule set, a
    member that the rule set inherits, or [undefined]. *)
Inductive Rule : Type :=
  | OwnRule (definition : CascadeDefinition)
  | InheritedRule (name : string)
  | NoRule.

Definition ruleOf (cascade : ICascade) (fieldValue : option string) : Rule :=
  match get (cascades cascade) (propertyKey fieldValue) with
  | Some definition => OwnRule definition
  | None =>
      if inherits (propertyKey fieldValue)
      then InheritedRule (propertyKey fieldValue)
      else NoRule
  end.

(** [rule[field]]: a [TypeError] on [undefined]; on a cascade definition the
    entry, the member the definition inherits, or [undefined]; on an
    inherited member what the realm gives. *)
Definition entryOf (rule : Rule) (field : string) : Outcome Value :=
  match rule with
  | OwnRule definition =>
      match get definition field with
      | Some entry => Ok entry
      | None => Ok (if inherits field then Other field else Undefined)
      end
  | InheritedRule name =>
      match memberProperty name field with
      | Some entry => Ok entry
      | None => Throw TypeError
      end
  | NoRule => Throw TypeError
  end.

(** [cascade.cascades[fieldValue]?.[field]] *)
Definition optionalEntry (cascade : ICascade) (fieldValue : option string)
    (field : string) : Outcome Value :=
  match ruleOf cascade fieldValue with
  | NoRule => Ok Undefined
  | rule => entryOf rule field
  end.

(** [typeof entry === 'string' && entry === FieldOptionsFlags.All] *)
Definition isAllFlag (entry : Value) : bool :=
  match entry with
  | Str s => String.eqb s FieldOptionsFlags_All
  | _ => false
  end.

Definition orUndefined (entry : option Value) : Value :=
  match entry with
  | Some v => v
  | None => Undefined
  end.

(** Lines 111-123: the options of one task. *)
Definition cascadeOptionsOf (h : H) (field alterField : string)
    (cascade : ICascade) : Outcome Value :=
  let fieldValue := getFieldValue h alterField in
  if falsy fieldValue then Ok (Arr (getAllowedFieldValues h field))
  else
    match optionalEntry cascade fieldValue field with
    | Throw e => Throw e
    | Ok entry =>
        if isAllFlag entry then Ok (Arr (getAllowedFieldValues h field))
        else entryOf (ruleOf cascade fieldValue) field
    end.

(** Lines 125-129. *)
Definition mergeOptions (fieldValues : FieldOptions) (field : string)
    (cascadeOptions : Value) : FieldOptions :=
  if hasOwnProperty fieldValues field then
    set fieldValues field
        (Arr (intersection (orUndefined (get fieldValues field)) cascadeOptions))
  else
    set fieldValues field cascadeOptions.

Definition runTask (h : H) (fieldValues : FieldOptions) (task : Task)
    : Outcome FieldOptions :=
  let '(field, (alterField, cascade)) := task in
  if includes (alters cascade) field then
    match cascadeOptionsOf h field alterField cascade with
    | Throw e => Throw e
    | Ok cascadeOptions => Ok (mergeOptions fieldValues field cascadeOptions)
    end
  else Ok fieldValues.

(** The tasks run to their merge in the order [settled]; a task that throws
    rejects the [Promise.all]. *)
Fixpoint runTasks (h : H) (settled : list Task) (fieldValues : FieldOptions)
    : Outcome FieldOptions :=
  match settled with
  | [] => Ok fieldValues
  | task :: rest =>
      match runTask h fieldValues task with
      | Throw e => Throw e
      | Ok fieldValues' => runTasks h rest fieldValues'
      end
  end.

(** [settle] is the order in which the host lets the tasks reach their merge;
    it permutes the tasks. *)
Variable settle : list Task -> list Task.

Definition prepareCascadeOptions (h : H) (affectedFields : list string)
    : Outcome FieldOptions :=
  runTasks h (settle (cascadeTasks affectedFields)) [].

(** *** [performCascading], lines 148-171 *)

Definition invalidMessage (fieldReferenceName : string) : string :=
  "Field '" ++ fieldReferenceName ++ "' value is invalid".

(** The loop of lines 163-170 over the entries of [fieldValues]. *)
Fixpoint filterAndValidate (fieldValues : list (string * Value))
    : Async.M unit :=
  match fieldValues with
  | [] => Async.ret tt
  | (fieldReferenceName, values) :: rest =>
      Async.act (FilterAllowedFieldValues fieldReferenceName values)
                (filterAllowedFieldValues fieldReferenceName values) ;;;
      isValid <- Async.read (fun h => validateFilter h fieldReferenceName) ;;
      if negb isValid then
        Async.act (SetError (invalidMessage fieldReferenceName))
                  (setError (invalidMessage fieldReferenceName))
      else filterAndValidate rest
  end.

Definition performCascading (changedFieldReferenceName : string)
    : Async.M unit :=
  changedFieldValue <-
    Async.read (fun h => getFieldValue h changedFieldReferenceName) ;;
  Async.act ClearError clearError ;;;
  if negb (hasOwnProperty cascadeMap changedFieldReferenceName) then
    Async.ret tt
  else
    Async.attempt
      (HintFieldValue changedFieldReferenceName changedFieldValue)
      (hintFieldValue cascadeMap changedFieldReferenceName changedFieldValue) ;;;
    affectedFields <-
      Async.lift (getAffectedFields changedFieldReferenceName changedFieldValue) ;;
    fieldValues <-
      Async.bind (Async.read (fun h => prepareCascadeOptions h affectedFields))
                 Async.lift ;;
    filterAndValidate (entries fieldValues).

End CascadingFieldsService.

(** ** [CascadeValidationService] *)

Section CascadeValidationService.
Import Js Lodash.

Variable RESERVED_FIELD_NAMES : list string.

(** Lines 194-210, for the reference names [fieldList] of the fetched field
    catalog (line 192) and a configuration that is an object.  [None] is the
    [null] of line 210. *)
Definition validateCascades (fieldList : list string)
    (cascades : CascadeConfiguration) : option (list string) :=
  let invalidFieldsTotal :=
    filter (fun field => negb (includes fieldList field)) (keys cascades) in
  let invalidFieldsTotal :=
    fold_left
      (fun invalidFieldsTotal fieldValues =>
         fold_left
           (fun invalidFieldsTotal innerFields =>
              let invalidFields :=
                filter (fun field =>
                          negb (includes RESERVED_FIELD_NAMES field)
                          && negb (includes fieldList field))
                       (keys innerFields) in
              invalidFieldsTotal ++ invalidFields)
           (values fieldValues) invalidFieldsTotal)
      (values cascades) invalidFieldsTotal in
  if Nat.ltb 0 (List.length invalidFieldsTotal) then Some invalidFieldsTotal else None.

End CascadeValidationService.

(** ** Vocabulary of the specification *)

Module Spec.
Import Js.


(** How often [name] is a key of a cascade definition of the configuration,
    counting every (parent, parent value) pair on its own. *)
Definition nestedOccurrences (name : string)
    (configuration : CascadeConfiguration) : nat :=
  list_sum
    (map (fun ruleSet =>
            list_sum (map (fun definition =>
                             count_occ string_dec (keys definition) name)
                          (values ruleSet)))
         (values configuration)).


(** The findings of the validator: a parent field that the catalog does not
    have, a non-reserved key of a cascade definition that it does not have,
    and all of them in the order lines 195 and 198-204 gather them. *)
Definition unknownParent (fieldList : list string) (field : string) : bool :=
  negb (includes fieldList field).

Definition unknownDependent (reserved fieldList : list string)
    (field : string) : bool :=
  negb (includes reserved field) && negb (includes fieldList field).

Definition findings (reserved fieldList : list string)
    (cascades : CascadeConfiguration) : list string :=
  filter (unknownParent fieldList) (keys cascades)
  ++ flat_map (fun fieldValues =>
                 flat_map (fun innerFields =>
                             filter (unknownDependent reserved fieldList)
                                    (keys innerFields))
                          (values fieldValues))
              (values cascades).



End Spec.

(** What a run of filters leaves behind: the host after the filters of
    [fieldValues] were applied in order, and the calls that applied them. *)
Section Filters.
Context {H : Type} {workItemService : WorkItemFormService H}.

Definition applyFilters (fieldValues : list (string * Js.Value)) (h : H) : H :=
  fold_left (fun h '(fieldReferenceName, values) =>
               filterAllowedFieldValues fieldReferenceName values h)
            fieldValues h.

Definition filterCalls (fieldValues : list (string * Js.Value)) : list Call :=
  map (fun '(fieldReferenceName, values) =>
         FilterAllowedFieldValues fieldReferenceName values)
      fieldValues.


End Filters.

(** The tasks of [prepareCascadeOptions] one by one: whether a task throws,
    what it offers to the merge, the offers made for one field, and the merge
    of a run of offers. *)
Section Offers.
Import Js Lodash.
Context {H : Type} {workItemService : WorkItemFormService H} {realm : Realm}.
Variable FieldOptionsFlags_All : string.

Definition faults (h : H) (task : Task) : bool :=
  let '(field, (alterField, cascade)) := task in
  includes (alters cascade) field
  && match cascadeOptionsOf FieldOptionsFlags_All h field alterField cascade with
     | Throw _ => true
     | Ok _ => false
     end.

Definition offers (h : H) (task : Task) : list (string * Value) :=
  let '(field, (alterField, cascade)) := task in
  if includes (alters cascade) field then
    match cascadeOptionsOf FieldOptionsFlags_All h field alterField cascade with
    | Ok cascadeOptions => [(field, cascadeOptions)]
    | Throw _ => []
    end
  else [].

Definition offeredFor (field : string) (offered : list (string * Value))
    : list Value :=
  flat_map (fun '(field', cascadeOptions) =>
              if String.eqb field' field then [cascadeOptions] else [])
           offered.

Definition mergeAll (offered : list (string * Value))
    (fieldValues : FieldOptions) : FieldOptions :=
  fold_left (fun fieldValues '(field, cascadeOptions) =>
               mergeOptions fieldValues field cascadeOptions)
            offered fieldValues.

(** The value a field ends with after the offers [offered] for it, starting
    from [current]. *)
Definition accumulate (current : option Value) (offered : list Value)
    : option Value :=
  fold_left (fun current cascadeOptions =>
               match current with
               | None => Some cascadeOptions
               | Some accumulated =>
                   Some (Arr (intersection accumulated cascadeOptions))
               end)
            offered current.

(** The permitted set of a dependent field for one parent, as the
    specification words it: the schema's allowed values when the parent has
    no value or its entry for the field is the flag, the explicit list of
    the entry otherwise. *)
Inductive PermittedSet (h : H) (field alterField : string)
    (cascade : ICascade) : list string -> Prop :=
  | permitted_no_value :
      falsy (getFieldValue h alterField) = true ->
      PermittedSet h field alterField cascade (getAllowedFieldValues h field)
  | permitted_all (value : string) (definition : CascadeDefinition) :
      getFieldValue h alterField = Some value -> value <> "" ->
      get (cascades cascade) value = Some definition ->
      get definition field = Some (Str FieldOptionsFlags_All) ->
      PermittedSet h field alterField cascade (getAllowedFieldValues h field)
  | permitted_explicit (value : string) (definition : CascadeDefinition)
      (permitted : list string) :
      getFieldValue h alterField = Some value -> value <> "" ->
      get (cascades cascade) value = Some definition ->
      get definition field = Some (Arr permitted) ->
      PermittedSet h field alterField cascade permitted.

End Offers.

(** ** A form to run the service on

    A small host: it stores the current values, the schema's allowed values,
    the filters that were applied and the error that is shown.  A field with
    no filter reports its schema values. *)

Module Form.
Import Js.

Record State : Type := mkState {
  current : Obj string;
  schema : Obj (list string);
  filters : Obj Value;
  shownError : option string
}.

Definition schemaValues (h : State) (field : string) : list string :=
  match get (schema h) field with
  | Some l => l
  | None => []
  end.

Definition filteredValues (h : State) (field : string) : list string :=
  match get (filters h) field with
  | Some v => Lodash.castArrayLikeObject v
  | None => schemaValues h field
  end.

#[export] Instance service : WorkItemFormService State := {
  getFieldValue h field := get (current h) field;
  getAllowedFieldValues := schemaValues;
  getFilteredAllowedFieldValues := filteredValues;
  filterAllowedFieldValues field values h :=
    mkState (current h) (schema h) (set (filters h) field values) (shownError h);
  setError message h :=
    mkState (current h) (schema h) (filters h) (Some message);
  clearError h := mkState (current h) (schema h) (filters h) None
}.

(** A hint service that resolves without touching the form, and one whose
    [hintFieldValue] is rejected. *)
Definition quietHints : HintService State :=
  {| hintFieldValue := fun _ _ _ h => (Ok tt, h) |}.

Definition failingHints : HintService State :=
  {| hintFieldValue := fun _ _ _ h => (Throw (Rejected "hint"), h) |}.

(** A realm with the members that the language standard gives
    [Object.prototype].  Each is a function, but for [__proto__], which reads
    the prototype itself: a function has its name, throws at [caller] and
    [arguments], and reads [undefined] at a property that no prototype
    gives. *)
Definition prototypeMembers : list string :=
  ["constructor"; "hasOwnProperty"; "isPrototypeOf"; "propertyIsEnumerable";
   "toLocaleString"; "toString"; "valueOf"; "__proto__";
   "__defineGetter__"; "__defineSetter__"; "__lookupGetter__";
   "__lookupSetter__"].

#[export] Instance realm : Realm := {
  inherits k := includes prototypeMembers k;
  memberProperty k p :=
    if String.eqb k "__proto__" then
      Some (if includes prototypeMembers p then Other p else Undefined)
    else if String.eqb p "caller" || String.eqb p "arguments" then None
    else if String.eqb p "name" then
      Some (Str (if String.eqb k "constructor" then "Object" else k))
    else Some (if includes prototypeMembers p then Other p else Undefined)
}.

Definition reserved : list string := ["tip"].
Definition allFlag : string := "All".

(** The configuration of the specification's scenario. *)
Definition categoryConfiguration : CascadeConfiguration :=
  [("Category", [("Bug", [("Priority", Arr ["1"; "2"])]);
                 ("Feature", [("Priority", Str "All")])])].

(** Two parents that restrict the same field. *)
Definition twoParents : CascadeConfiguration :=
  [("P1", [("on", [("F", Arr ["a"; "b"; "c"])])]);
   ("P2", [("on", [("F", Arr ["b"; "c"; "d"])]);
           ("other", [("G", Arr ["x"])])])].

Definition start (values : Obj string) : World State :=
  mkWorld (mkState values
                   [("Priority", ["1"; "2"; "3"; "4"]);
                    ("F", ["a"; "b"; "c"; "d"; "e"]);
                    ("G", ["x"; "y"])]
                   [] (Some "stale"))
          [].

Definition twoParentsMap : CascadeMap :=
  createCascadingMap reserved (Some twoParents).

Definition secondParent : ICascade :=
  mkCascade ["F"; "G"]
            [("on", [("F", Arr ["b"; "c"; "d"])]);
             ("other", [("G", Arr ["x"])])].

(** Both parents on their restricting value; [F] holds a value that the
    restriction excludes. *)
Definition bothOn : World State :=
  start [("P1", "on"); ("P2", "on"); ("F", "a")].

(** The second parent holds a value that its rule set does not have, or a
    value whose cascade definition says nothing about [F]. *)
Definition secondUnmatched : World State :=
  start [("P1", "on"); ("P2", "off")].

Definition secondElsewhere : World State :=
  start [("P1", "on"); ("P2", "other")].


(** One parent that restricts two fields. *)
Definition twoDependents : CascadeConfiguration :=
  [("P", [("v", [("F", Arr ["b"]); ("G", Arr ["x"]); ("tip", Str "pick b")])])].

Definition twoDependentsMap : CascadeMap :=
  createCascadingMap reserved (Some twoDependents).

Definition firstInvalid : World State :=
  start [("P", "v"); ("F", "a"); ("G", "x")].

(** A configuration that names a field the catalog does not have three
    times. *)
Definition ghostConfiguration : CascadeConfiguration :=
  [("Ghost", [("x", [("Ghost", Arr ["1"]); ("tip", Str "text")]);
              ("y", [("Ghost", Str "All"); ("F", Arr ["a"])])])].

Definition catalog : list string := ["P1"; "P2"; "F"; "G"].

(** Two orders for the tasks of the option computation. *)
Definition inOrder (tasks : list Task) : list Task := tasks.
Definition reversed (tasks : list Task) : list Task := rev tasks.

End Form.

(** ** The session operations of the service *)

(** [HintService.setEnabled], the other method of the hint service that the
    engine calls; it is synchronous and changes the state of the hint
    service. *)
Class HintSwitch (H : Type) : Type := {
  setEnabled : bool -> H -> H
}.

(** The fields [resetAllCascades] resets (lines 93-94): the [alters] of every
    entry of the map, each field once, in the order a [Set] keeps them. *)
Definition fieldsToReset (cascadeMap : CascadeMap) : list string :=
  Lodash.uniq
    (Lodash.flatten (map (fun value => alters value) (Js.values cascadeMap))).

(** The fields of the [filterAllowedFieldValues] calls of a log. *)
Definition filteredFields (log : list Call) : list string :=
  flat_map (fun c => match c with
                     | FilterAllowedFieldValues fieldName _ => [fieldName]
                     | _ => []
                     end)
           log.

Section Session.
Import Js Lodash.
Context {H : Type} {workItemService : WorkItemFormService H}
        {hintSwitch : HintSwitch H}.
Variable cascadeMap : CascadeMap.

(** The writes of line 98, in the order the reads of line 97 resolved. *)
Fixpoint filterEach (resolved : list (string * Value)) : Async.M unit :=
  match resolved with
  | [] => Async.ret tt
  | (fieldName, values) :: rest =>
      Async.act (FilterAllowedFieldValues fieldName values)
                (filterAllowedFieldValues fieldName values) ;;;
      filterEach rest
  end.

(** [resolve] is the order in which the host answers the reads of line 97;
    it permutes them. *)
Variable resolve : list (string * Value) -> list (string * Value).

(** Lines 88-101.  Every task of line 96 asks for the allowed values of its
    field before the first [await] gives control back, so all the reads see
    the form as [setEnabled] left it; the allowed values of the form are
    strings. *)
Definition resetAllCascades : Async.M (list unit) :=
  fun w =>
    (reads <-
       Async.read (fun h =>
                     map (fun fieldName =>
                            (fieldName, Arr (getAllowedFieldValues h fieldName)))
                         (fieldsToReset cascadeMap)) ;;
     filterEach (resolve reads) ;;;
     Async.ret (map (fun _ => tt) (fieldsToReset cascadeMap)))
      (mkWorld (setEnabled true (host w)) (calls w)).

End Session.

(** ** The field catalog of [CascadeValidationService]

    What line 181 awaits before it validates: the project of the page
    (lines 182-185) and, when no catalog is cached, the fields of the project
    (lines 187-191).  A field of the catalog is its reference name. *)


Section CatalogCache.
Variable RESERVED_FIELD_NAMES : list string.


End CatalogCache.

(** ** A form with a hint switch *)

Module Desk.
Import Js.
#[local] Existing Instance Form.service.

Record State : Type := mkDesk {
  form : Form.State;
  hintsEnabled : bool
}.

#[export] Instance service : WorkItemFormService State := {
  getFieldValue d field := getFieldValue (form d) field;
  getAllowedFieldValues d field := getAllowedFieldValues (form d) field;
  getFilteredAllowedFieldValues d field :=
    getFilteredAllowedFieldValues (form d) field;
  filterAllowedFieldValues field values d :=
    mkDesk (filterAllowedFieldValues field values (form d)) (hintsEnabled d);
  setError message d := mkDesk (setError message (form d)) (hintsEnabled d);
  clearError d := mkDesk (clearError (form d)) (hintsEnabled d)
}.

#[export] Instance switch : HintSwitch State := {
  setEnabled enabled d := mkDesk (form d) enabled
}.

(** The form of [Form.bothOn] after a pass filtered [F] and [G], with the
    hints switched off. *)
Definition filtered : World State :=
  mkWorld
    (mkDesk (Form.mkState [("P1", "on"); ("P2", "on"); ("F", "b")]
                          [("F", ["a"; "b"; "c"; "d"; "e"]); ("G", ["x"; "y"])]
                          [("F", Arr ["b"; "c"]); ("G", Arr [])]
                          None)
            false)
    [].

Definition backwards (reads : list (string * Value)) : list (string * Value) :=
  rev reads.




End Desk.

(** * Properties *)

(** ** Objects and arrays *)

Module JsFacts.
Import Js.

Lemma includes_In (l : list string) (x : string) :
  includes l x = true <-> In x l.
Proof.
  unfold includes. rewrite existsb_exists. split.
  - intros [y [Hy Heq]]. apply String.eqb_eq in Heq. now subst.
  - intros Hx. exists x. split; [assumption | apply String.eqb_refl].
Qed.

Lemma includes_not_In (l : list string) (x : string) :
  includes l x = false <-> ~ In x l.
Proof.
  rewrite <- includes_In. destruct (includes l x); intuition congruence.
Qed.

Lemma get_In {A} (o : Obj A) (k : string) (v : A) :
  get o k = Some v -> In (k, v) o.
Proof.
  induction o as [|[k' v'] rest IH]; simpl; [discriminate|].
  destruct (String.eqb_spec k' k) as [->|Hne].
  - intros [= ->]. now left.
  - intros Hg. right. now apply IH.
Qed.

Lemma get_None {A} (o : Obj A) (k : string) :
  get o k = None <-> ~ In k (keys o).
Proof.
  induction o as [|[k' v'] rest IH]; simpl; [tauto|].
  destruct (String.eqb_spec k' k) as [->|Hne].
  - split; [discriminate | intros Hn; exfalso; apply Hn; now left].
  - rewrite IH. tauto.
Qed.

Lemma In_keys {A} (o : Obj A) (k : string) (v : A) :
  In (k, v) o -> In k (keys o).
Proof. intros Hin. unfold keys. change k with (fst (k, v)). now apply in_map. Qed.

Lemma In_get {A} (o : Obj A) (k : string) (v : A) :
  NoDup (keys o) -> In (k, v) o -> get o k = Some v.
Proof.
  induction o as [|[k' v'] rest IH]; simpl; [tauto|].
  intros Hnd [Heq|Hin].
  - injection Heq as -> ->. now rewrite String.eqb_refl.
  - inversion Hnd as [|? ? Hnotin Hrest]; subst.
    destruct (String.eqb_spec k' k) as [->|Hne].
    + exfalso. apply Hnotin. eapply In_keys; eassumption.
    + now apply IH.
Qed.

Lemma get_set_same {A} (o : Obj A) (k : string) (v : A) :
  get (set o k v) k = Some v.
Proof.
  induction o as [|[k' v'] rest IH]; simpl.
  - now rewrite String.eqb_refl.
  - destruct (String.eqb_spec k' k) as [->|Hne]; simpl.
    + now rewrite String.eqb_refl.
    + destruct (String.eqb_spec k' k); [contradiction | assumption].
Qed.

Lemma get_set_other {A} (o : Obj A) (k k' : string) (v : A) :
  k <> k' -> get (set o k v) k' = get o k'.
Proof.
  intros Hne. induction o as [|[k0 v0] rest IH]; simpl.
  - destruct (String.eqb_spec k k'); [contradiction | reflexivity].
  - destruct (String.eqb_spec k0 k) as [->|Hne0]; simpl.
    + destruct (String.eqb_spec k k'); [contradiction | reflexivity].
    + now rewrite IH.
Qed.

Lemma set_fresh {A} (o : Obj A) (k : string) (v : A) :
  get o k = None -> set o k v = o ++ [(k, v)].
Proof.
  induction o as [|[k' v'] rest IH]; simpl; [reflexivity|].
  destruct (String.eqb_spec k' k); [discriminate|].
  intros Hg. now rewrite IH.
Qed.

Lemma hasOwnProperty_get {A} (o : Obj A) (k : string) :
  hasOwnProperty o k = true <-> exists v, get o k = Some v.
Proof.
  unfold hasOwnProperty. destruct (get o k) as [v|].
  - split; [eauto | reflexivity].
  - split; [discriminate | intros [v Hv]; discriminate].
Qed.

Lemma falsy_cases (s : option string) :
  falsy s = true <-> s = None \/ s = Some "".
Proof.
  destruct s as [v|]; simpl.
  - rewrite String.eqb_eq. split; [intros ->; now right|].
    intros [Hn|[= ->]]; [discriminate | reflexivity].
  - split; [now left | reflexivity].
Qed.

End JsFacts.

(** ** lodash *)

Module LodashFacts.
Import Js Lodash JsFacts.

Lemma uniq_from (l acc : list string) :
  NoDup acc ->
  let result :=
    fold_left (fun result value =>
                 if includes result value then result else result ++ [value])
              l acc in
  NoDup result /\ forall x, In x result <-> In x acc \/ In x l.
Proof.
  revert acc. induction l as [|y l IH]; intros acc Hnd; simpl.
  - split; [assumption | intros x; tauto].
  - destruct (includes acc y) eqn:Hy.
    + destruct (IH acc Hnd) as [Hnd' Hin]. split; [assumption|].
      intros x. rewrite Hin. apply includes_In in Hy.
      split; [tauto | intros [?|[->|?]]; tauto].
    + assert (Hnd1 : NoDup (acc ++ [y])).
      { apply includes_not_In in Hy.
        apply NoDup_app; [assumption | repeat constructor; simpl; tauto |].
        intros a Ha [<-|[]]. contradiction. }
      destruct (IH _ Hnd1) as [Hnd' Hin]. split; [assumption|].
      intros x. rewrite Hin, in_app_iff. simpl. tauto.
Qed.

Lemma uniq_NoDup (l : list string) : NoDup (uniq l).
Proof. apply (uniq_from l []). constructor. Qed.

Lemma uniq_In (l : list string) (x : string) : In x (uniq l) <-> In x l.
Proof.
  destruct (uniq_from l [] (NoDup_nil _)) as [_ Hin].
  unfold uniq. rewrite Hin. simpl. tauto.
Qed.

Lemma baseIntersection_from (first other acc : list string) :
  NoDup acc ->
  let result :=
    fold_left (fun result value =>
                 if includes result value then result
                 else if includes other value then result ++ [value]
                 else result)
              first acc in
  NoDup result /\
  forall x, In x result <-> In x acc \/ (In x first /\ In x other).
Proof.
  revert acc. induction first as [|y l IH]; intros acc Hnd; simpl.
  - split; [assumption | intros x; tauto].
  - destruct (includes acc y) eqn:Hy.
    + destruct (IH acc Hnd) as [Hnd' Hin]. split; [assumption|].
      intros x. rewrite Hin. apply includes_In in Hy.
      split; [tauto | intros [?|[[->|?] ?]]; tauto].
    + destruct (includes other y) eqn:Ho.
      * assert (Hnd1 : NoDup (acc ++ [y])).
        { apply includes_not_In in Hy.
          apply NoDup_app; [assumption | repeat constructor; simpl; tauto |].
          intros a Ha [<-|[]]. contradiction. }
        destruct (IH _ Hnd1) as [Hnd' Hin]. split; [assumption|].
        apply includes_In in Ho.
        intros x. rewrite Hin, in_app_iff. simpl.
        split; [intros [[?|[<-|[]]]|?]; tauto | intros [?|[[->|?] ?]]; tauto].
      * destruct (IH acc Hnd) as [Hnd' Hin]. split; [assumption|].
        apply includes_not_In in Ho.
        intros x. rewrite Hin.
        split; [tauto | intros [?|[[->|?] ?]]; tauto].
Qed.

Lemma baseIntersection_In (first other : list string) (x : string) :
  In x (baseIntersection first other) <-> In x first /\ In x other.
Proof.
  destruct (baseIntersection_from first other [] (NoDup_nil _)) as [_ Hin].
  unfold baseIntersection. rewrite Hin. simpl. tauto.
Qed.

Lemma baseIntersection_NoDup (first other : list string) :
  NoDup (baseIntersection first other).
Proof. apply (baseIntersection_from first other []). constructor. Qed.

(** An intersection has the values that both arguments have as arrays. *)
Lemma intersection_In (a b : Value) (x : string) :
  In x (intersection a b) <->
  In x (castArrayLikeObject a) /\ In x (castArrayLikeObject b).
Proof.
  destruct a as [|s|first|name]; simpl; try tauto.
  apply baseIntersection_In.
Qed.

End LodashFacts.

(** ** The cascade map builder *)

Section BuilderFacts.
Import Js Lodash JsFacts LodashFacts.

Variable RESERVED_FIELD_NAMES : list string.

Lemma push_all {A B} (f : A -> list B) (l : list A) (acc : list B) :
  fold_left (fun acc a => acc ++ f a) l acc = acc ++ flat_map f l.
Proof.
  revert acc. induction l as [|a l IH]; intros acc; simpl.
  - now rewrite app_nil_r.
  - now rewrite IH, app_assoc.
Qed.

Lemma notReserved_true (field : string) :
  notReserved RESERVED_FIELD_NAMES field = true <->
  ~ In field RESERVED_FIELD_NAMES.
Proof.
  unfold notReserved. rewrite negb_true_iff. apply includes_not_In.
Qed.


Lemma builder_fold (configuration : CascadeConfiguration)
    (built : CascadeMap) (step : CascadeRuleSet -> ICascade) :
  NoDup (keys configuration) ->
  (forall k, In k (keys configuration) -> ~ In k (keys built)) ->
  fold_left (fun (cascadeMap : CascadeMap) '(fieldName, fieldValues) =>
               set cascadeMap fieldName (step fieldValues))
            configuration built
  = built ++ map (fun '(fieldName, fieldValues) =>
                    (fieldName, step fieldValues)) configuration.
Proof.
  revert built. induction configuration as [|[k rs] rest IH];
    intros built Hnd Hfresh; simpl.
  - now rewrite app_nil_r.
  - inversion Hnd as [|? ? Hk Hrest]; subst.
    rewrite set_fresh by (apply get_None; apply Hfresh; now left).
    rewrite IH; [now rewrite <- app_assoc | assumption |].
    intros k' Hk'. unfold keys. rewrite map_app, in_app_iff. simpl.
    intros [Hb|[<-|[]]].
    + apply (Hfresh k'); [now right | assumption].
    + contradiction.
Qed.

Lemma createCascadingMap_entries (configuration : CascadeConfiguration) :
  NoDup (keys configuration) ->
  createCascadingMap RESERVED_FIELD_NAMES (Some configuration)
  = map (fun '(fieldName, fieldValues) =>
           (fieldName,
            mkCascade
              (uniq (fold_left
                       (fun alters cascadeDefinitions =>
                          alters ++ filter (notReserved RESERVED_FIELD_NAMES)
                                           (keys cascadeDefinitions))
                       (values fieldValues) []))
              fieldValues))
        configuration.
Proof.
  intros Hnd. unfold createCascadingMap, entries.
  now rewrite (builder_fold configuration []
                 (fun fieldValues => mkCascade _ fieldValues)) by auto.
Qed.


End BuilderFacts.

(** ** The affected-field resolver *)

Section ResolverFacts.
Import Js Lodash JsFacts LodashFacts.

Variable RESERVED_FIELD_NAMES : list string.
Variable cascadeMap : CascadeMap.



End ResolverFacts.

(** ** The configuration validator *)

Section ValidatorFacts.
Import Js Lodash JsFacts LodashFacts.

Variable RESERVED_FIELD_NAMES : list string.
Variable fieldList : list string.

Let unknownParent := Spec.unknownParent fieldList.
Let unknownDependent := Spec.unknownDependent RESERVED_FIELD_NAMES fieldList.
Let findings := Spec.findings RESERVED_FIELD_NAMES fieldList.

Lemma nested_findings (ruleSets : list CascadeRuleSet) (total : list string) :
  fold_left
    (fun invalidFieldsTotal fieldValues =>
       fold_left
         (fun invalidFieldsTotal innerFields =>
            invalidFieldsTotal ++ filter unknownDependent (keys innerFields))
         (values fieldValues) invalidFieldsTotal)
    ruleSets total
  = total ++ flat_map (fun fieldValues =>
                         flat_map (fun innerFields =>
                                     filter unknownDependent (keys innerFields))
                                  (values fieldValues))
                      ruleSets.
Proof.
  revert total. induction ruleSets as [|rs rest IH]; intros total; simpl.
  - now rewrite app_nil_r.
  - rewrite IH, push_all. now rewrite app_assoc.
Qed.

Lemma validateCascades_findings (cascades : CascadeConfiguration) :
  validateCascades RESERVED_FIELD_NAMES fieldList cascades
  = match findings cascades with
    | [] => None
    | _ :: _ => Some (findings cascades)
    end.
Proof.
  unfold validateCascades.
  change (fun field => negb (includes RESERVED_FIELD_NAMES field)
                       && negb (includes fieldList field))
    with unknownDependent.
  change (fun field => negb (includes fieldList field)) with unknownParent.
  rewrite nested_findings.
  change (filter unknownParent (keys cascades) ++ _) with (findings cascades).
  now destruct (findings cascades).
Qed.

Lemma findings_nil (cascades : CascadeConfiguration) :
  findings cascades = [] <->
  (forall field, In field (keys cascades) -> In field fieldList) /\
  (forall fieldValues innerFields field,
     In fieldValues (values cascades) ->
     In innerFields (values fieldValues) ->
     In field (keys innerFields) ->
     ~ In field RESERVED_FIELD_NAMES -> In field fieldList).
Proof.
  assert (Hnil : forall l : list string, l = [] <-> forall x, ~ In x l).
  { intros l. split; [intros -> x []|].
    destruct l as [|y l]; [reflexivity|]. intros Hl.
    exfalso. apply (Hl y). now left. }
  assert (Hdec : forall field, In field fieldList \/ ~ In field fieldList).
  { intros field. destruct (includes fieldList field) eqn:Hi.
    - left. now apply includes_In.
    - right. now apply includes_not_In. }
  rewrite Hnil. unfold findings, Spec.findings. split.
  - intros Hnone. split.
    + intros field Hk. destruct (Hdec field) as [Hin|Hout]; [assumption|].
      exfalso. apply (Hnone field). apply in_or_app. left.
      apply filter_In. split; [assumption|].
      unfold unknownParent, Spec.unknownParent. now rewrite (proj2 (includes_not_In _ _) Hout).
    + intros fieldValues innerFields field Hfv Hinner Hk Hres.
      destruct (Hdec field) as [Hin|Hout]; [assumption|].
      exfalso. apply (Hnone field). apply in_or_app. right.
      apply in_flat_map. exists fieldValues. split; [assumption|].
      apply in_flat_map. exists innerFields. split; [assumption|].
      apply filter_In. split; [assumption|].
      unfold unknownDependent, Spec.unknownDependent.
      rewrite (proj2 (includes_not_In _ _) Hout).
      now rewrite (proj2 (includes_not_In _ _) Hres).
  - intros [Htop Hnested] field Hin. apply in_app_or in Hin as [Hin|Hin].
    + apply filter_In in Hin as [Hk Hu]. unfold unknownParent, Spec.unknownParent in Hu.
      apply negb_true_iff, includes_not_In in Hu. apply Hu. now apply Htop.
    + apply in_flat_map in Hin as [fieldValues [Hfv Hin]].
      apply in_flat_map in Hin as [innerFields [Hinner Hin]].
      apply filter_In in Hin as [Hk Hu]. unfold unknownDependent, Spec.unknownDependent in Hu.
      apply andb_true_iff in Hu as [Hres Hout].
      apply negb_true_iff, includes_not_In in Hres.
      apply negb_true_iff, includes_not_In in Hout.
      apply Hout. eapply Hnested; eassumption.
Qed.

(** C5.  [validateCascades] returns [null] exactly when every top-level key
    and every non-reserved key of every cascade definition is in the field
    catalog; in every other case it returns the top-level keys that are not
    in the catalog followed by the nested non-reserved keys that are not. *)
Theorem validateCascades_null_iff_all_known (cascades : CascadeConfiguration) :
  (validateCascades RESERVED_FIELD_NAMES fieldList cascades = None <->
   (forall field, In field (keys cascades) -> In field fieldList) /\
   (forall fieldValues innerFields field,
      In fieldValues (values cascades) ->
      In innerFields (values fieldValues) ->
      In field (keys innerFields) ->
      ~ In field RESERVED_FIELD_NAMES -> In field fieldList)) /\
  (validateCascades RESERVED_FIELD_NAMES fieldList cascades = None \/
   validateCascades RESERVED_FIELD_NAMES fieldList cascades
   = Some (filter (fun field => negb (includes fieldList field))
                  (keys cascades)
           ++ flat_map
                (fun fieldValues =>
                   flat_map
                     (fun innerFields =>
                        filter (fun field =>
                                  negb (includes RESERVED_FIELD_NAMES field)
                                  && negb (includes fieldList field))
                               (keys innerFields))
                     (values fieldValues))
                (values cascades))).
Proof.
  rewrite validateCascades_findings. split.
  - rewrite <- findings_nil.
    destruct (findings cascades); split; congruence.
  - destruct (findings cascades) eqn:Hf; [now left | right].
    rewrite <- Hf. reflexivity.
Qed.

Lemma count_occ_filter (p : string -> bool) (l : list string) (x : string) :
  count_occ string_dec (filter p l) x
  = if p x then count_occ string_dec l x else 0.
Proof.
  induction l as [|y l IH]; simpl; [now destruct (p x)|].
  destruct (string_dec y x) as [->|Hne].
  - destruct (p x) eqn:Hp; simpl.
    + destruct (string_dec x x); [now rewrite IH | contradiction].
    + exact IH.
  - destruct (p y); simpl; [|exact IH].
    destruct (string_dec y x); [contradiction | exact IH].
Qed.

Lemma count_occ_flat_map {A} (f : A -> list string) (l : list A) (x : string) :
  count_occ string_dec (flat_map f l) x
  = list_sum (map (fun a => count_occ string_dec (f a) x) l).
Proof.
  induction l as [|a l IH]; simpl; [reflexivity|].
  now rewrite count_occ_app, IH.
Qed.

Lemma list_sum_zero {A} (f : A -> nat) (l : list A) :
  (forall a, f a = 0) -> list_sum (map f l) = 0.
Proof.
  intros Hf. induction l as [|a l IH]; simpl; [reflexivity|].
  now rewrite Hf, IH.
Qed.

Lemma count_findings (cascades : CascadeConfiguration) (name : string) :
  ~ In name fieldList ->
  count_occ string_dec (findings cascades) name
  = count_occ string_dec (keys cascades) name
    + (if includes RESERVED_FIELD_NAMES name then 0
       else Spec.nestedOccurrences name cascades).
Proof.
  intros Hout. apply includes_not_In in Hout.
  unfold findings, Spec.findings.
  rewrite count_occ_app, count_occ_filter.
  unfold Spec.unknownParent at 1. rewrite Hout. simpl negb. cbv iota.
  f_equal. rewrite count_occ_flat_map.
  destruct (includes RESERVED_FIELD_NAMES name) eqn:Hres.
  - apply list_sum_zero. intros fieldValues.
    rewrite count_occ_flat_map. apply list_sum_zero. intros innerFields.
    rewrite count_occ_filter. unfold Spec.unknownDependent.
    now rewrite Hres.
  - unfold Spec.nestedOccurrences. f_equal. apply map_ext.
    intros fieldValues. rewrite count_occ_flat_map. f_equal. apply map_ext.
    intros innerFields. rewrite count_occ_filter.
    unfold Spec.unknownDependent. now rewrite Hres, Hout.
Qed.

(** C10.  The list [validateCascades] returns keeps every occurrence: a name
    that the catalog does not have is listed once for each time it is a
    top-level key and, unless it is reserved, once more for each cascade
    definition that has it as a key (no list at all, [null], when that makes
    no entry for any name). *)
Theorem validateCascades_lists_every_occurrence
    (cascades : CascadeConfiguration) (name : string) :
  ~ In name fieldList ->
  count_occ string_dec
    (match validateCascades RESERVED_FIELD_NAMES fieldList cascades with
     | Some invalidFields => invalidFields
     | None => []
     end) name
  = count_occ string_dec (keys cascades) name
    + (if includes RESERVED_FIELD_NAMES name then 0
       else Spec.nestedOccurrences name cascades).
Proof.
  intros Hout. rewrite validateCascades_findings.
  rewrite <- (count_findings cascades name Hout).
  now destruct (findings cascades).
Qed.

End ValidatorFacts.

(** ** The orchestrator *)

Section OrchestratorFacts.
Import Js Lodash JsFacts LodashFacts.

Variable RESERVED_FIELD_NAMES : list string.
Variable FieldOptionsFlags_All : string.
Context {H : Type} {workItemService : WorkItemFormService H}
        {hintService : HintService H}
        {realm : Realm}.
Variable cascadeMap : CascadeMap.
Variable settle : list (@Task) -> list (@Task).

Lemma applyFilters_app (l1 l2 : list (string * Value)) (h : H) :
  applyFilters (l1 ++ l2) h = applyFilters l2 (applyFilters l1 h).
Proof. unfold applyFilters. apply fold_left_app. Qed.





Lemma hasOwnProperty_of_get {A} (o : Obj A) (k : string) (v : A) :
  get o k = Some v -> hasOwnProperty o k = true.
Proof. intros Hg. unfold hasOwnProperty. now rewrite Hg. Qed.



(** C8, as the code has it.  When the hint service rejects
    [hintFieldValue], the pass of a parent field is rejected with the same
    reason right there: the value was read, the error cleared and the hint
    attempted, and no field is filtered or validated and no error is set. *)
Theorem performCascading_rejected_with_hint
    (changed : string) (cascade : ICascade) (w : World H) (e : Error)
    (left : H) :
  get cascadeMap changed = Some cascade ->
  hintFieldValue cascadeMap changed (getFieldValue (host w) changed)
                 (clearError (host w)) = (Throw e, left) ->
  performCascading RESERVED_FIELD_NAMES FieldOptionsFlags_All cascadeMap
                   settle changed w
  = (Throw e,
     mkWorld left
       (calls w ++ [ClearError;
                    HintFieldValue changed (getFieldValue (host w) changed)])).
Proof.
  intros Hparent Hhint.
  unfold performCascading, Async.bind, Async.read, Async.act, Async.attempt.
  simpl. rewrite (hasOwnProperty_of_get _ _ _ Hparent). simpl.
  rewrite Hhint. now rewrite <- app_assoc.
Qed.


End OrchestratorFacts.

(** ** The option intersection engine *)

Section OptionsFacts.
Import Js Lodash JsFacts LodashFacts.

Variable FieldOptionsFlags_All : string.
Context {H : Type} {workItemService : WorkItemFormService H}
        {realm : Realm}.
Variable cascadeMap : CascadeMap.

Lemma cascadeOptionsOf_throws (h : H) (field alterField : string)
    (cascade : ICascade) (e : Error) :
  cascadeOptionsOf FieldOptionsFlags_All h field alterField cascade = Throw e ->
  e = TypeError.
Proof.
  unfold cascadeOptionsOf, optionalEntry.
  destruct (falsy _); [discriminate|].
  destruct (ruleOf cascade (getFieldValue h alterField)) as [definition|name|];
    simpl.
  - destruct (get definition field); simpl.
    + destruct (isAllFlag _); discriminate.
    + destruct (inherits field); discriminate.
  - destruct (memberProperty name field); simpl.
    + destruct (isAllFlag _); discriminate.
    + now intros [= <-].
  - now intros [= <-].
Qed.

Lemma runTasks_outcome (h : H) (settled : list Task)
    (fieldValues : FieldOptions) :
  runTasks FieldOptionsFlags_All h settled fieldValues
  = if existsb (faults FieldOptionsFlags_All h) settled then Throw TypeError
    else Ok (mergeAll (flat_map (offers FieldOptionsFlags_All h) settled)
                      fieldValues).
Proof.
  revert fieldValues.
  induction settled as [|[field [alterField cascade]] rest IH];
    intros fieldValues; simpl; [reflexivity|].
  destruct (includes (alters cascade) field); simpl; [|apply IH].
  destruct (cascadeOptionsOf FieldOptionsFlags_All h field alterField cascade)
    as [cascadeOptions|e] eqn:Hopt; simpl.
  - apply IH.
  - now rewrite (cascadeOptionsOf_throws _ _ _ _ _ Hopt).
Qed.

Lemma get_mergeOptions (fieldValues : FieldOptions) (field field' : string)
    (cascadeOptions : Value) :
  get (mergeOptions fieldValues field' cascadeOptions) field
  = if String.eqb field' field
    then accumulate (get fieldValues field) [cascadeOptions]
    else get fieldValues field.
Proof.
  unfold mergeOptions, hasOwnProperty.
  destruct (String.eqb_spec field' field) as [->|Hne].
  - destruct (get fieldValues field) as [current|] eqn:Hcur;
      now rewrite get_set_same.
  - destruct (get fieldValues field'); now rewrite get_set_other.
Qed.

Lemma get_mergeAll (offered : list (string * Value))
    (fieldValues : FieldOptions) (field : string) :
  get (mergeAll offered fieldValues) field
  = accumulate (get fieldValues field) (offeredFor field offered).
Proof.
  revert fieldValues.
  induction offered as [|[field' cascadeOptions] rest IH];
    intros fieldValues; simpl; [reflexivity|].
  unfold mergeAll in *. simpl. rewrite IH, get_mergeOptions.
  unfold accumulate. rewrite fold_left_app.
  destruct (String.eqb field' field); reflexivity.
Qed.

(** From the second offer on the accumulated value is an array: the values
    every offer has as an array. *)
Lemma accumulate_some (accumulated : Value) (offered : list Value) :
  offered <> [] ->
  exists options,
    accumulate (Some accumulated) offered = Some (Arr options) /\
    forall x,
      In x options <->
      In x (castArrayLikeObject accumulated) /\
      Forall (fun cascadeOptions => In x (castArrayLikeObject cascadeOptions))
             offered.
Proof.
  revert accumulated.
  induction offered as [|o rest IH]; intros accumulated Hne; [contradiction|].
  destruct rest as [|o' rest'].
  - simpl. eexists. split; [reflexivity|].
    intros x. rewrite intersection_In. split.
    + intros [Ha Ho]. split; [assumption | now constructor].
    + intros [Ha Ho]. inversion Ho; subst. tauto.
  - destruct (IH (Arr (intersection accumulated o)) ltac:(discriminate))
      as [options [Heq Hin]].
    exists options. split; [exact Heq|].
    intros x. rewrite Hin. simpl castArrayLikeObject at 1.
    rewrite intersection_In. split.
    + intros [[Ha Ho] Hrest]. split; [assumption | now constructor].
    + intros [Ha Hall]. inversion Hall; subst. tauto.
Qed.

Lemma accumulate_two (first second : Value) (offered : list Value) :
  exists options,
    accumulate None (first :: second :: offered) = Some (Arr options) /\
    forall x,
      In x options <->
      Forall (fun cascadeOptions => In x (castArrayLikeObject cascadeOptions))
             (first :: second :: offered).
Proof.
  destruct (accumulate_some first (second :: offered) ltac:(discriminate))
    as [options [Heq Hin]].
  exists options. split; [exact Heq|].
  intros x. rewrite Hin. split.
  - intros [Ha Hall]. now constructor.
  - intros Hall. inversion Hall; subst. tauto.
Qed.








Lemma In_cascadeTasks (affectedFields : list string) (field alterField : string)
    (cascade : ICascade) :
  In (field, (alterField, cascade)) (cascadeTasks cascadeMap affectedFields) <->
  In field affectedFields /\ In (alterField, cascade) cascadeMap.
Proof.
  unfold cascadeTasks, flatten, entries.
  rewrite <- flat_map_concat_map, in_flat_map. split.
  - intros [field' [Hf Hin]]. apply in_map_iff in Hin as [entry [Heq Hin]].
    injection Heq as <- ->. tauto.
  - intros [Hf Hin]. exists field. split; [assumption|].
    apply in_map_iff. now exists (alterField, cascade).
Qed.

Lemma In_offeredFor (field : string) (offered : list (string * Value))
    (cascadeOptions : Value) :
  In cascadeOptions (offeredFor field offered) <->
  In (field, cascadeOptions) offered.
Proof.
  unfold offeredFor. rewrite in_flat_map. split.
  - intros [[field' o] [Hin Ho]].
    destruct (String.eqb_spec field' field) as [->|Hne]; [|contradiction].
    destruct Ho as [<-|[]]. assumption.
  - intros Hin. exists (field, cascadeOptions). split; [assumption|].
    rewrite String.eqb_refl. now left.
Qed.

Lemma In_offers (h : H) (settled : list Task) (field : string)
    (cascadeOptions : Value) :
  In (field, cascadeOptions)
     (flat_map (offers FieldOptionsFlags_All h) settled) <->
  exists alterField cascade,
    In (field, (alterField, cascade)) settled /\
    includes (alters cascade) field = true /\
    cascadeOptionsOf FieldOptionsFlags_All h field alterField cascade
    = Ok cascadeOptions.
Proof.
  rewrite in_flat_map. split.
  - intros [[field' [alterField cascade]] [Hin Ho]]. simpl in Ho.
    destruct (includes (alters cascade) field') eqn:Halters; [|contradiction].
    destruct (cascadeOptionsOf _ h field' alterField cascade) as [o|e] eqn:Hopt;
      [|contradiction].
    destruct Ho as [[= <- <-]|[]]. now exists alterField, cascade.
  - intros [alterField [cascade [Hin [Halters Hopt]]]].
    exists (field, (alterField, cascade)). split; [assumption|].
    simpl. rewrite Halters, Hopt. now left.
Qed.

(** With array offers only, the accumulated value is an array from the first
    offer on. *)
Lemma accumulate_arrays (offered : list Value) :
  offered <> [] ->
  (forall o, In o offered -> exists l, o = Arr l) ->
  exists options,
    accumulate None offered = Some (Arr options) /\
    forall x,
      In x options <->
      Forall (fun cascadeOptions => In x (castArrayLikeObject cascadeOptions))
             offered.
Proof.
  intros Hne Harr. destruct offered as [|a [|b rest]]; [contradiction| |].
  - destruct (Harr a (or_introl eq_refl)) as [l ->].
    exists l. split; [reflexivity|]. intros x. split.
    + intros Hin. now repeat constructor.
    + intros Hall. now inversion Hall.
  - apply accumulate_two.
Qed.


End OptionsFacts.

(** ** The properties at work on a form *)

Section Scenarios.
Import Js Lodash Form.


(** Two parents that restrict [F] to a, b, c and to b, c, d leave b and c,
    in either order of the tasks. *)
Example two_parents_leave_b_c :
  prepareCascadeOptions allFlag twoParentsMap inOrder (host bothOn) ["F"]
  = Ok [("F", Arr ["b"; "c"])] /\
  prepareCascadeOptions allFlag twoParentsMap reversed (host bothOn) ["F"]
  = Ok [("F", Arr ["b"; "c"])].
Proof. split; reflexivity. Qed.

(** The scenario of one parent [Category]. *)
Example category_scenario :
  let categoryMap := createCascadingMap reserved (Some categoryConfiguration) in
  prepareCascadeOptions allFlag categoryMap inOrder
    (host (start [("Category", "Bug")])) ["Priority"]
  = Ok [("Priority", Arr ["1"; "2"])] /\
  prepareCascadeOptions allFlag categoryMap inOrder
    (host (start [("Category", "Feature")])) ["Priority"]
  = Ok [("Priority", Arr ["1"; "2"; "3"; "4"])] /\
  getAffectedFields reserved categoryMap "Category" None = Ok ["Priority"].
Proof. repeat split; reflexivity. Qed.


Lemma reversed_permutes (tasks : list Task) :
  Permutation (reversed tasks) tasks.
Proof. apply Permutation_sym, Permutation_rev. Defined.





Lemma validateCascades_witness :
  validateCascades reserved catalog twoParents = None /\
  validateCascades reserved catalog ghostConfiguration
  = Some ["Ghost"; "Ghost"; "Ghost"].
Proof.
  split; [reflexivity|].
  destruct (proj2 (validateCascades_null_iff_all_known reserved catalog
                     ghostConfiguration)) as [Hnull|Hlist].
  - discriminate Hnull.
  - exact Hlist.
Defined.


(** C8 as stated fails: with a hint service that rejects, the pass of the
    parent [P1] is rejected after [clearError] and the hint, and nothing is
    filtered or validated; with a hint service that resolves, the same pass
    on the same form filters [F] and reports its value. *)
Lemma performCascading_aborts_when_hint_rejects :
  hasOwnProperty twoParentsMap "P1" = true /\
  @hintFieldValue State failingHints twoParentsMap "P1" (Some "on")
     (clearError (host bothOn))
  = (Throw (Rejected "hint"), clearError (host bothOn)) /\
  @performCascading reserved allFlag State service failingHints realm
     twoParentsMap inOrder "P1" bothOn
  = (Throw (Rejected "hint"),
     mkWorld (clearError (host bothOn))
             [ClearError; HintFieldValue "P1" (Some "on")]) /\
  calls (snd (@performCascading reserved allFlag State service quietHints realm
                twoParentsMap inOrder "P1" bothOn))
  = [ClearError; HintFieldValue "P1" (Some "on");
     FilterAllowedFieldValues "F" (Arr ["b"; "c"]);
     SetError "Field 'F' value is invalid"].
Proof. repeat split; reflexivity. Qed.

Lemma performCascading_rejected_witness :
  get twoParentsMap "P1" <> None /\
  @performCascading reserved allFlag State service failingHints realm
     twoParentsMap reversed "P1" bothOn
  = (Throw (Rejected "hint"),
     mkWorld (clearError (host bothOn))
             [ClearError; HintFieldValue "P1" (Some "on")]).
Proof.
  split; [discriminate|].
  exact (@performCascading_rejected_with_hint
           reserved allFlag State service failingHints realm twoParentsMap reversed
           "P1" (mkCascade ["F"] [("on", [("F", Arr ["a"; "b"; "c"])])])
           bothOn (Rejected "hint") (clearError (host bothOn))
           eq_refl eq_refl).
Defined.


Lemma not_in_catalog (name : string) :
  includes catalog name = false -> ~ In name catalog.
Proof. apply JsFacts.includes_not_In. Defined.

Lemma validateCascades_lists_witness :
  ~ In "Ghost" catalog /\
  count_occ string_dec
    (match validateCascades reserved catalog ghostConfiguration with
     | Some invalidFields => invalidFields
     | None => []
     end) "Ghost"
  = 3.
Proof.
  split; [apply not_in_catalog; reflexivity|].
  exact (validateCascades_lists_every_occurrence reserved catalog
           ghostConfiguration "Ghost" (not_in_catalog "Ghost" eq_refl)).
Defined.

(** C1 at a form the service can meet.  [F] is the one affected field and
    both parents alter it.  [P1] holds a value whose cascade definition
    stores the explicit list a, b, c for [F].  [P2] holds a value, not the
    empty one, for which its rule set has no cascade definition and inherits
    none: its entry for [F] is not the flag and no list is stored for it.
    The option computation then returns no mapping at all: it is rejected
    with a [TypeError], in either order of the tasks.  When [P2] holds a
    value whose cascade definition stores nothing for [F], the mapping gives
    [F] no value, though the one list that is stored for [F] has three. *)
Theorem prepareCascadeOptions_gives_no_mapping_at_unmatched_value :
  In ("P1", mkCascade ["F"] [("on", [("F", Arr ["a"; "b"; "c"])])])
     twoParentsMap /\
  In ("P2", secondParent) twoParentsMap /\
  In "F" (alters secondParent) /\
  PermittedSet allFlag (host secondUnmatched) "F" "P1"
    (mkCascade ["F"] [("on", [("F", Arr ["a"; "b"; "c"])])])
    ["a"; "b"; "c"] /\
  getFieldValue (host secondUnmatched) "P2" = Some "off" /\
  get (cascades secondParent) "off" = None /\
  inherits "off" = false /\
  prepareCascadeOptions allFlag twoParentsMap inOrder (host secondUnmatched)
                        ["F"]
  = Throw TypeError /\
  prepareCascadeOptions allFlag twoParentsMap reversed (host secondUnmatched)
                        ["F"]
  = Throw TypeError /\
  get (cascades secondParent) "other" = Some [("G", Arr ["x"])] /\
  get [("G", Arr ["x"])] "F" = None /\
  prepareCascadeOptions allFlag twoParentsMap reversed (host secondElsewhere)
                        ["F"]
  = Ok [("F", Arr [])].
Proof.
  split; [now left|]. split; [right; now left|]. split; [now left|].
  split.
  - eapply permitted_explicit; try reflexivity. discriminate.
  - repeat split; reflexivity.
Qed.

(** C6 at a form the service can meet.  A change of [P1] to a value with a
    rule affects [F], which [P2] alters too.  When [P2] holds a value that
    has no cascade definition, the read of line 122 throws, the option
    computation is rejected, and the pass ends after the hint with no filter
    applied.  When [P2] holds a value whose definition has no entry for [F],
    the read gives [undefined], and the merge turns it into an empty
    allowed-value collection. *)
Theorem prepareCascadeOptions_faults_on_unmatched_value :
  getAffectedFields reserved twoParentsMap "P1" (Some "on") = Ok ["F"] /\
  get twoParentsMap "P2" = Some secondParent /\
  cascadeOptionsOf allFlag (host secondUnmatched) "F" "P2" secondParent
  = Throw TypeError /\
  prepareCascadeOptions allFlag twoParentsMap inOrder (host secondUnmatched)
                        ["F"]
  = Throw TypeError /\
  prepareCascadeOptions allFlag twoParentsMap reversed (host secondUnmatched)
                        ["F"]
  = Throw TypeError /\
  @performCascading reserved allFlag State service quietHints realm
     twoParentsMap inOrder "P1" secondUnmatched
  = (Throw TypeError,
     mkWorld (clearError (host secondUnmatched))
             [ClearError; HintFieldValue "P1" (Some "on")]) /\
  cascadeOptionsOf allFlag (host secondElsewhere) "F" "P2" secondParent
  = Ok Undefined /\
  prepareCascadeOptions allFlag twoParentsMap inOrder (host secondElsewhere)
                        ["F"]
  = Ok [("F", Arr [])].
Proof. repeat split; reflexivity. Qed.

End Scenarios.

(** * Further properties of the service *)

(** ** The resolver and the maps the constructor builds *)

Section ResolverOnBuiltMaps.
Import Js Lodash JsFacts LodashFacts.

Variable RESERVED_FIELD_NAMES : list string.

Lemma filter_flat_map_keys {A} (p : string -> bool) (f : A -> list string)
    (l : list A) :
  flat_map (fun a => filter p (f a)) l = filter p (flat_map f l).
Proof.
  induction l as [|a l IH]; simpl; [reflexivity|].
  now rewrite filter_app, IH.
Qed.

Lemma includes_filter (p : string -> bool) (l : list string) (x : string) :
  p x = true -> includes (filter p l) x = includes l x.
Proof.
  intros Hp. destruct (includes l x) eqn:Hin.
  - apply includes_In. apply filter_In. split; [|assumption].
    now apply includes_In.
  - apply includes_not_In. intros Hf. apply filter_In in Hf as [Hl _].
    apply includes_not_In in Hin. contradiction.
Qed.

(** Removing repetitions and keeping the values that pass a test can be done
    in either order. *)
Lemma uniq_from_filter (p : string -> bool) (l result : list string) :
  fold_left (fun result value =>
               if includes result value then result else result ++ [value])
            (filter p l) (filter p result)
  = filter p
      (fold_left (fun result value =>
                    if includes result value then result else result ++ [value])
                 l result).
Proof.
  revert result. induction l as [|x l IH]; intros result; simpl;
    [reflexivity|].
  destruct (p x) eqn:Hp; simpl.
  - rewrite (includes_filter p result x Hp).
    destruct (includes result x); [apply IH|].
    rewrite <- IH, filter_app. simpl. now rewrite Hp.
  - destruct (includes result x); [apply IH|].
    rewrite <- IH, filter_app. simpl. rewrite Hp. now rewrite app_nil_r.
Qed.

Lemma uniq_filter (p : string -> bool) (l : list string) :
  uniq (filter p l) = filter p (uniq l).
Proof. exact (uniq_from_filter p l []). Qed.

Lemma alters_of_built_entry (fieldValues : CascadeRuleSet) :
  uniq (fold_left
          (fun alters cascadeDefinitions =>
             alters ++ filter (notReserved RESERVED_FIELD_NAMES)
                              (keys cascadeDefinitions))
          (values fieldValues) [])
  = filter (notReserved RESERVED_FIELD_NAMES)
           (uniq (flat_map (fun cascade => keys cascade) (values fieldValues))).
Proof.
  rewrite push_all. simpl.
  rewrite (filter_flat_map_keys (notReserved RESERVED_FIELD_NAMES)
             (fun cascade : CascadeDefinition => keys cascade)).
  apply uniq_filter.
Qed.

Lemma get_built (configuration : CascadeConfiguration) (fieldName : string)
    (fieldValues : CascadeRuleSet) :
  NoDup (keys configuration) ->
  In (fieldName, fieldValues) configuration ->
  get (createCascadingMap RESERVED_FIELD_NAMES (Some configuration)) fieldName
  = Some (mkCascade
            (filter (notReserved RESERVED_FIELD_NAMES)
                    (uniq (flat_map (fun cascade => keys cascade)
                                    (values fieldValues))))
            fieldValues).
Proof.
  intros Hnd Hin. rewrite (createCascadingMap_entries _ _ Hnd).
  rewrite <- alters_of_built_entry.
  apply In_get.
  - unfold keys. rewrite map_map.
    erewrite map_ext; [exact Hnd | now intros [k rs]].
  - apply in_map_iff. exists (fieldName, fieldValues).
    split; [reflexivity | assumption].
Qed.

Lemma in_filter_keys (definition : CascadeDefinition)
    (ruleSet : CascadeRuleSet) (value field : string) :
  get ruleSet value = Some definition ->
  In field (filter (notReserved RESERVED_FIELD_NAMES) (keys definition)) ->
  In field (filter (notReserved RESERVED_FIELD_NAMES)
                   (uniq (flat_map (fun cascade => keys cascade)
                                   (values ruleSet)))).
Proof.
  intros Hdef Hin. apply filter_In in Hin as [Hk Hres].
  apply filter_In. split; [|assumption].
  apply uniq_In, in_flat_map. exists definition. split; [|assumption].
  apply get_In in Hdef. unfold values.
  change definition with (snd (value, definition)). now apply in_map.
Qed.

(** X1.  Whatever value a parent field of the map holds, the fields its
    change affects are not reserved and are among the fields that the parent
    affects when it holds no value. *)
Theorem getAffectedFields_within_no_value
    (cascadeMap : CascadeMap) (parentField : string) (cascade : ICascade)
    (parentValue : option string) (fields : list string) :
  get cascadeMap parentField = Some cascade ->
  getAffectedFields RESERVED_FIELD_NAMES cascadeMap parentField parentValue
  = Ok fields ->
  exists unselected,
    getAffectedFields RESERVED_FIELD_NAMES cascadeMap parentField None
    = Ok unselected /\
    forall field,
      In field fields ->
      ~ In field RESERVED_FIELD_NAMES /\ In field unselected.
Proof.
  intros Hparent Hfields. unfold getAffectedFields in *.
  rewrite Hparent in *. simpl. eexists. split; [reflexivity|].
  intros field Hin.
  assert (Hres : forall l, In field (filter (notReserved RESERVED_FIELD_NAMES) l)
                           -> ~ In field RESERVED_FIELD_NAMES).
  { intros l Hl. apply filter_In in Hl as [_ Hl].
    now apply notReserved_true. }
  destruct (falsy parentValue).
  - injection Hfields as <-. split; [eapply Hres; eassumption | assumption].
  - destruct (get (cascades cascade) (propertyKey parentValue))
      as [definition|] eqn:Hdef; injection Hfields as <-; [|contradiction].
    split; [eapply Hres; eassumption|].
    eapply in_filter_keys; eassumption.
Qed.

(** X2.  In the map the constructor builds from a configuration, the
    [alters] list of a parent is, entry for entry, the list of fields the
    resolver returns for the parent without a value, and the fields the
    resolver returns for any value are on it. *)
Theorem built_alters_are_the_fields_of_no_value
    (configuration : CascadeConfiguration) (fieldName : string)
    (fieldValues : CascadeRuleSet) :
  NoDup (keys configuration) ->
  In (fieldName, fieldValues) configuration ->
  exists cascade,
    get (createCascadingMap RESERVED_FIELD_NAMES (Some configuration))
        fieldName = Some cascade /\
    cascades cascade = fieldValues /\
    getAffectedFields RESERVED_FIELD_NAMES
      (createCascadingMap RESERVED_FIELD_NAMES (Some configuration))
      fieldName None = Ok (alters cascade) /\
    getAffectedFields RESERVED_FIELD_NAMES
      (createCascadingMap RESERVED_FIELD_NAMES (Some configuration))
      fieldName (Some "") = Ok (alters cascade) /\
    forall value fields,
      getAffectedFields RESERVED_FIELD_NAMES
        (createCascadingMap RESERVED_FIELD_NAMES (Some configuration))
        fieldName value = Ok fields ->
      incl fields (alters cascade).
Proof.
  intros Hnd Hin. pose proof (get_built _ _ _ Hnd Hin) as Hget.
  eexists. split; [exact Hget|]. split; [reflexivity|].
  unfold getAffectedFields. rewrite Hget. simpl.
  split; [reflexivity|]. split; [reflexivity|].
  intros value fields Hfields field Hfield.
  destruct (falsy value).
  - injection Hfields as <-. exact Hfield.
  - destruct (get fieldValues (propertyKey value)) as [definition|] eqn:Hdef;
      injection Hfields as <-; [|contradiction].
    eapply in_filter_keys; eassumption.
Qed.

End ResolverOnBuiltMaps.

(** ** The options of a pass, whatever the rules say *)

Section OptionsOfAnyMap.
Import Js Lodash JsFacts LodashFacts.

Variable FieldOptionsFlags_All : string.
Context {H : Type} {workItemService : WorkItemFormService H}
        {realm : Realm}.
Variable cascadeMap : CascadeMap.
Variable settle : list Task -> list Task.

(** The offers for a field in a computation that resolves. *)
Lemma resolved_options (h : H) (affectedFields : list string)
    (fieldValues : FieldOptions) :
  Permutation (settle (cascadeTasks cascadeMap affectedFields))
              (cascadeTasks cascadeMap affectedFields) ->
  prepareCascadeOptions FieldOptionsFlags_All cascadeMap settle h
                        affectedFields = Ok fieldValues ->
  fieldValues
  = mergeAll (flat_map (offers FieldOptionsFlags_All h)
                       (settle (cascadeTasks cascadeMap affectedFields))) [] /\
  forall field,
    exists offered,
      get fieldValues field = accumulate None offered /\
      forall o,
        In o offered <->
        exists alterField cascade,
          In field affectedFields /\ In (alterField, cascade) cascadeMap /\
          In field (alters cascade) /\
          cascadeOptionsOf FieldOptionsFlags_All h field alterField cascade
          = Ok o.
Proof.
  intros Hperm Hok. unfold prepareCascadeOptions in Hok.
  rewrite runTasks_outcome in Hok.
  destruct (existsb _ _); [discriminate|]. injection Hok as <-.
  split; [reflexivity|]. intros field.
  exists (offeredFor field
            (flat_map (offers FieldOptionsFlags_All h)
                      (settle (cascadeTasks cascadeMap affectedFields)))).
  split; [now rewrite get_mergeAll|].
  intros o. rewrite In_offeredFor, In_offers. split.
  - intros [alterField [cascade [Hin [Halters Hopt]]]].
    apply (Permutation_in _ Hperm), In_cascadeTasks in Hin as [Hf Hentry].
    apply includes_In in Halters. now exists alterField, cascade.
  - intros [alterField [cascade [Hf [Hentry [Halters Hopt]]]]].
    exists alterField, cascade. split.
    + apply (Permutation_in _ (Permutation_sym Hperm)).
      now apply In_cascadeTasks.
    + split; [now apply includes_In | assumption].
Qed.


Lemma keys_set {A} (o : Obj A) (k : string) (v : A) :
  keys (set o k v) = if hasOwnProperty o k then keys o else keys o ++ [k].
Proof.
  unfold hasOwnProperty.
  induction o as [|[k' v'] rest IH]; simpl; [reflexivity|].
  destruct (String.eqb k' k); simpl; [reflexivity|].
  rewrite IH. now destruct (get rest k).
Qed.

Lemma NoDup_keys_set {A} (o : Obj A) (k : string) (v : A) :
  NoDup (keys o) -> NoDup (keys (set o k v)).
Proof.
  intros Hnd. rewrite keys_set. unfold hasOwnProperty.
  destruct (get o k) eqn:Hget; [assumption|].
  apply get_None in Hget.
  apply NoDup_app; [assumption | repeat constructor; simpl; tauto |].
  intros a Ha [<-|[]]. contradiction.
Qed.

Lemma NoDup_keys_mergeAll (offered : list (string * Value))
    (fieldValues : FieldOptions) :
  NoDup (keys fieldValues) -> NoDup (keys (mergeAll offered fieldValues)).
Proof.
  revert fieldValues. induction offered as [|[field o] rest IH];
    intros fieldValues Hnd; [exact Hnd|].
  unfold mergeAll in *. simpl. apply IH. unfold mergeOptions.
  destruct (hasOwnProperty fieldValues field); now apply NoDup_keys_set.
Qed.

Lemma resolved_keys_altered (h : H) (affectedFields : list string)
    (fieldValues : FieldOptions) :
  Permutation (settle (cascadeTasks cascadeMap affectedFields))
              (cascadeTasks cascadeMap affectedFields) ->
  prepareCascadeOptions FieldOptionsFlags_All cascadeMap settle h
                        affectedFields = Ok fieldValues ->
  NoDup (keys fieldValues) /\
  forall field,
    In field (keys fieldValues) ->
    In field affectedFields /\
    exists alterField cascade,
      In (alterField, cascade) cascadeMap /\ In field (alters cascade).
Proof.
  intros Hperm Hok.
  destruct (resolved_options h affectedFields fieldValues Hperm Hok)
    as [Hmerged Hoffers].
  split.
  - rewrite Hmerged. apply NoDup_keys_mergeAll. constructor.
  - intros field Hkey. destruct (Hoffers field) as [offered [Hget Hin]].
    destruct offered as [|o rest].
    + exfalso. apply (proj1 (get_None fieldValues field)); [|exact Hkey].
      now rewrite Hget.
    + destruct (proj1 (Hin o) (or_introl eq_refl))
        as [alterField [cascade [Hf [Hentry [Halters _]]]]].
      split; [assumption | now exists alterField, cascade].
Qed.




End OptionsOfAnyMap.

(** ** The values of the options *)

Section OptionValues.
Import Js Lodash JsFacts LodashFacts.

Variable RESERVED_FIELD_NAMES : list string.
Variable FieldOptionsFlags_All : string.
Context {H : Type} {workItemService : WorkItemFormService H}
        {realm : Realm}.
Variable cascadeMap : CascadeMap.
Variable settle : list Task -> list Task.

Lemma accumulate_within (offered : list Value) (accumulated : Value) :
  accumulate None offered = Some accumulated ->
  forall o x,
    In o offered ->
    In x (castArrayLikeObject accumulated) -> In x (castArrayLikeObject o).
Proof.
  intros Hacc o x Ho Hx. destruct offered as [|a [|b rest]].
  - contradiction.
  - destruct Ho as [<-|[]]. injection Hacc as <-. exact Hx.
  - destruct (accumulate_two a b rest) as [options [Heq Hin]].
    rewrite Heq in Hacc. injection Hacc as <-. simpl in Hx.
    apply Hin in Hx. rewrite Forall_forall in Hx. now apply Hx.
Qed.

(** X5.  When the option computation resolves, a value that is left in the
    options of a field is a value of the offer of every parent that alters
    the field, whatever the offers are; an offer that is not an array (an
    entry that is missing or is a string) has no value. *)
Theorem prepareCascadeOptions_within_every_offer (h : H)
    (affectedFields : list string) (fieldValues : FieldOptions)
    (field alterField : string) (cascade : ICascade) (options offer : Value) :
  Permutation (settle (cascadeTasks cascadeMap affectedFields))
              (cascadeTasks cascadeMap affectedFields) ->
  prepareCascadeOptions FieldOptionsFlags_All cascadeMap settle h
                        affectedFields = Ok fieldValues ->
  get fieldValues field = Some options ->
  In (alterField, cascade) cascadeMap ->
  In field (alters cascade) ->
  cascadeOptionsOf FieldOptionsFlags_All h field alterField cascade
  = Ok offer ->
  forall x,
    In x (castArrayLikeObject options) -> In x (castArrayLikeObject offer).
Proof.
  intros Hperm Hok Hget Hentry Halters Hoffer x Hx.
  destruct (resolved_options FieldOptionsFlags_All cascadeMap settle h
              affectedFields fieldValues Hperm Hok) as [_ Hoffers].
  destruct (Hoffers field) as [offered [Hacc Hin]].
  rewrite Hget in Hacc. symmetry in Hacc.
  assert (Hfield : In field affectedFields).
  { destruct offered as [|o rest]; [discriminate|].
    destruct (proj1 (Hin o) (or_introl eq_refl)) as [? [? [Hf _]]].
    exact Hf. }
  eapply accumulate_within; [exact Hacc| |exact Hx].
  apply Hin. now exists alterField, cascade.
Qed.

(** X6.  When every parent that alters an affected field holds no value,
    the options of the field hold the values of the schema, no other and
    none less. *)
Theorem prepareCascadeOptions_without_parent_values (h : H)
    (affectedFields : list string) (fieldValues : FieldOptions)
    (field : string) :
  Permutation (settle (cascadeTasks cascadeMap affectedFields))
              (cascadeTasks cascadeMap affectedFields) ->
  prepareCascadeOptions FieldOptionsFlags_All cascadeMap settle h
                        affectedFields = Ok fieldValues ->
  In field (keys fieldValues) ->
  (forall alterField cascade,
     In (alterField, cascade) cascadeMap -> In field (alters cascade) ->
     falsy (getFieldValue h alterField) = true) ->
  exists options,
    get fieldValues field = Some (Arr options) /\
    forall x, In x options <-> In x (getAllowedFieldValues h field).
Proof.
  intros Hperm Hok Hkey Hempty.
  destruct (resolved_options FieldOptionsFlags_All cascadeMap settle h
              affectedFields fieldValues Hperm Hok) as [_ Hoffers].
  destruct (Hoffers field) as [offered [Hacc Hin]].
  assert (Hall : forall o, In o offered ->
                           o = Arr (getAllowedFieldValues h field)).
  { intros o Ho. apply Hin in Ho
      as [alterField [cascade [_ [Hentry [Halters Hopt]]]]].
    unfold cascadeOptionsOf in Hopt.
    rewrite (Hempty alterField cascade Hentry Halters) in Hopt.
    simpl in Hopt. now injection Hopt as <-. }
  assert (Hne : offered <> []).
  { intros Hnil. apply (proj1 (get_None fieldValues field)); [|exact Hkey].
    rewrite Hacc, Hnil. reflexivity. }
  destruct (accumulate_arrays offered Hne) as [options [Heq Hvalues]].
  { intros o Ho. rewrite (Hall o Ho). eauto. }
  exists options. split; [now rewrite Hacc|].
  intros x. rewrite Hvalues, Forall_forall. split.
  - intros Hx. destruct offered as [|o rest]; [contradiction|].
    specialize (Hx o (or_introl eq_refl)).
    now rewrite (Hall o (or_introl eq_refl)) in Hx.
  - intros Hx o Ho. now rewrite (Hall o Ho).
Qed.

(** X7.  For the parent whose change starts the pass, the read of line 122
    is always defined: for each field the resolver gives for the parent's
    current value, the parent's task takes the schema's values or the entry
    that the cascade definition of that value stores for the field; it never
    throws. *)
Theorem triggering_parent_has_an_entry (h : H) (parentField : string)
    (cascade : ICascade) (fields : list string) (field : string) :
  get cascadeMap parentField = Some cascade ->
  getAffectedFields RESERVED_FIELD_NAMES cascadeMap parentField
                    (getFieldValue h parentField) = Ok fields ->
  In field fields ->
  exists offer,
    cascadeOptionsOf FieldOptionsFlags_All h field parentField cascade
    = Ok offer /\
    (offer = Arr (getAllowedFieldValues h field) \/
     exists value definition,
       getFieldValue h parentField = Some value /\
       get (cascades cascade) value = Some definition /\
       get definition field = Some offer).
Proof.
  intros Hparent Hfields Hfield.
  unfold getAffectedFields in Hfields. rewrite Hparent in Hfields.
  unfold cascadeOptionsOf, optionalEntry, ruleOf.
  destruct (falsy (getFieldValue h parentField)) eqn:Hfalsy; simpl.
  - eexists. split; [reflexivity | now left].
  - destruct (getFieldValue h parentField) as [value|]; [|discriminate].
    simpl in *.
    destruct (get (cascades cascade) value) as [definition|] eqn:Hdef;
      injection Hfields as <-; [|contradiction].
    apply filter_In in Hfield as [Hkey _]. simpl.
    destruct (get definition field) as [entry|] eqn:Hentry.
    + destruct (isAllFlag FieldOptionsFlags_All entry).
      * eexists. split; [reflexivity | now left].
      * exists entry. split; [reflexivity|]. right.
        now exists value, definition.
    + exfalso. apply get_None in Hentry. contradiction.
Qed.

End OptionValues.

(** ** What a pass does to the form *)

Section PassFacts.
Import Js Lodash JsFacts LodashFacts.

Variable RESERVED_FIELD_NAMES : list string.
Variable FieldOptionsFlags_All : string.
Context {H : Type} {workItemService : WorkItemFormService H}
        {hintService : HintService H}
        {realm : Realm}.
Variable cascadeMap : CascadeMap.
Variable settle : list Task -> list Task.

Lemma filteredFields_app (log log' : list Call) :
  filteredFields (log ++ log') = filteredFields log ++ filteredFields log'.
Proof. unfold filteredFields. apply flat_map_app. Qed.

Lemma filteredFields_filterCalls (fieldValues : list (string * Value)) :
  filteredFields (filterCalls fieldValues) = keys fieldValues.
Proof.
  induction fieldValues as [|[f v] rest IH]; simpl; [reflexivity|].
  now rewrite IH.
Qed.

(** The loop resolves, and it filters the fields of a prefix of the
    options. *)
Lemma filterAndValidate_prefix (fieldValues : list (string * Value))
    (w : World H) :
  exists n,
    fst (filterAndValidate fieldValues w) = Ok tt /\
    filteredFields (calls (snd (filterAndValidate fieldValues w)))
    = filteredFields (calls w) ++ keys (firstn n fieldValues).
Proof.
  revert w. induction fieldValues as [|[f v] rest IH]; intros w.
  - exists 0. simpl. now rewrite app_nil_r.
  - simpl. unfold Async.bind, Async.act, Async.read. simpl.
    destruct (validateFilter (filterAllowedFieldValues f v (host w)) f); simpl.
    + destruct (IH (mkWorld (filterAllowedFieldValues f v (host w))
                            (calls w ++ [FilterAllowedFieldValues f v])))
        as [n [Hok Hlog]].
      exists (S n). split; [exact Hok|]. rewrite Hlog. simpl.
      rewrite filteredFields_app. simpl. now rewrite <- app_assoc.
    + exists 1. split; [reflexivity|].
      rewrite !filteredFields_app. simpl. now rewrite app_nil_r.
Qed.

Lemma getAffectedFields_of_parent (changed : string) (cascade : ICascade)
    (value : option string) :
  get cascadeMap changed = Some cascade ->
  exists affectedFields,
    getAffectedFields RESERVED_FIELD_NAMES cascadeMap changed value
    = Ok affectedFields.
Proof.
  intros Hparent. unfold getAffectedFields. rewrite Hparent.
  destruct (falsy value); [eauto|].
  destruct (get (cascades cascade) (propertyKey value)); eauto.
Qed.


Lemma NoDup_firstn {A} (n : nat) (l : list A) : NoDup l -> NoDup (firstn n l).
Proof.
  intros Hnd. rewrite <- (firstn_skipn n l) in Hnd.
  now apply NoDup_app_remove_r in Hnd.
Qed.

Lemma altered_in_fieldsToReset (field alterField : string)
    (cascade : ICascade) :
  In (alterField, cascade) cascadeMap -> In field (alters cascade) ->
  In field (fieldsToReset cascadeMap).
Proof.
  intros Hentry Halters. unfold fieldsToReset, flatten.
  apply uniq_In. rewrite <- flat_map_concat_map. apply in_flat_map.
  exists cascade. split; [|assumption].
  unfold values. change cascade with (snd (alterField, cascade)).
  now apply in_map.
Qed.

(** X9.  In one pass no field is filtered twice, and every field that is
    filtered is on the [alters] list of some parent, that is, among the
    fields [resetAllCascades] resets. *)
Theorem performCascading_filters_altered_fields_once
    (changed : string) (w : World H) :
  (forall affectedFields,
     Permutation (settle (cascadeTasks cascadeMap affectedFields))
                 (cascadeTasks cascadeMap affectedFields)) ->
  exists fields,
    filteredFields
      (calls (snd (performCascading RESERVED_FIELD_NAMES FieldOptionsFlags_All
                     cascadeMap settle changed w)))
    = filteredFields (calls w) ++ fields /\
    NoDup fields /\
    incl fields (fieldsToReset cascadeMap).
Proof.
  intros Hperm.
  assert (Hnone : forall log' : list Call,
            filteredFields log' = [] ->
            forall log : list Call,
              log = calls w ++ log' ->
              exists fields,
                filteredFields log = filteredFields (calls w) ++ fields /\
                NoDup fields /\ incl fields (fieldsToReset cascadeMap)).
  { intros log' Hlog log ->. exists []. rewrite filteredFields_app, Hlog.
    split; [reflexivity|]. split; [constructor | intros x []]. }
  unfold performCascading, Async.bind, Async.read, Async.act, Async.attempt,
    Async.lift, Async.ret. simpl.
  destruct (hasOwnProperty cascadeMap changed) eqn:Hhas; simpl.
  - apply hasOwnProperty_get in Hhas as [cascade Hparent].
    destruct (hintFieldValue cascadeMap changed
                (getFieldValue (host w) changed) (clearError (host w)))
      as [[[]|eh] hinted] eqn:Hhint; simpl.
    + destruct (getAffectedFields_of_parent changed cascade
                  (getFieldValue (host w) changed) Hparent)
        as [affectedFields Haffected].
      rewrite Haffected. simpl.
      destruct (prepareCascadeOptions FieldOptionsFlags_All cascadeMap settle
                  hinted affectedFields) as [fieldValues|eo] eqn:Hoptions.
      * destruct (resolved_keys_altered FieldOptionsFlags_All cascadeMap
                    settle hinted affectedFields fieldValues
                    (Hperm affectedFields) Hoptions) as [Hnd Hkeys].
        destruct (filterAndValidate_prefix (entries fieldValues)
                    (mkWorld hinted
                       ((calls w ++ [ClearError])
                        ++ [HintFieldValue changed
                              (getFieldValue (host w) changed)])))
          as [n [_ Hlog]].
        exists (keys (firstn n (entries fieldValues))).
        rewrite Hlog. simpl. rewrite !filteredFields_app. simpl.
        rewrite !app_nil_r. split; [reflexivity|]. split.
        -- unfold keys. rewrite <- firstn_map. now apply NoDup_firstn.
        -- intros field Hin. unfold keys in Hin. rewrite <- firstn_map in Hin.
           assert (Hkey : In field (keys fieldValues)).
           { unfold keys, entries in *.
             rewrite <- (firstn_skipn n (map fst fieldValues)).
             apply in_or_app. now left. }
           destruct (Hkeys field Hkey) as [_ [alterField [c [Hentry Ha]]]].
           eapply altered_in_fieldsToReset; eassumption.
      * simpl. apply (Hnone [ClearError;
                             HintFieldValue changed
                               (getFieldValue (host w) changed)]);
          [reflexivity | simpl; now rewrite <- app_assoc].
    + apply (Hnone [ClearError;
                    HintFieldValue changed (getFieldValue (host w) changed)]);
        [reflexivity | simpl; now rewrite <- app_assoc].
  - apply (Hnone [ClearError]); reflexivity.
Qed.


End PassFacts.

(** ** The reset of a session *)

Section ResetFacts.
Import Js Lodash JsFacts LodashFacts.

Context {H : Type} {workItemService : WorkItemFormService H}
        {hintSwitch : HintSwitch H}.
Variable cascadeMap : CascadeMap.
Variable resolve : list (string * Value) -> list (string * Value).

Lemma filterEach_applies (resolved : list (string * Value)) (w : World H) :
  filterEach resolved w
  = (Ok tt, mkWorld (applyFilters resolved (host w))
                    (calls w ++ filterCalls resolved)).
Proof.
  revert w. induction resolved as [|[f v] rest IH]; intros w; simpl.
  - unfold Async.ret. rewrite app_nil_r. now destruct w.
  - unfold Async.bind, Async.act. simpl. rewrite IH. simpl.
    now rewrite <- app_assoc.
Qed.

Lemma in_fieldsToReset (field : string) :
  In field (fieldsToReset cascadeMap) <->
  exists alterField cascade,
    In (alterField, cascade) cascadeMap /\ In field (alters cascade).
Proof.
  unfold fieldsToReset, flatten.
  rewrite uniq_In, <- flat_map_concat_map, in_flat_map. split.
  - intros [cascade [Hc Hf]]. unfold values in Hc.
    apply in_map_iff in Hc as [[alterField c] [Heq Hin]]. simpl in Heq.
    subst c. now exists alterField, cascade.
  - intros [alterField [cascade [Hin Hf]]]. exists cascade.
    split; [|assumption]. unfold values.
    change cascade with (snd (alterField, cascade)). now apply in_map.
Qed.

Lemma resolved_reads (g : string -> Value) (fields : list string) :
  Permutation (resolve (map (fun f => (f, g f)) fields))
              (map (fun f => (f, g f)) fields) ->
  resolve (map (fun f => (f, g f)) fields)
  = map (fun f => (f, g f))
        (keys (resolve (map (fun f => (f, g f)) fields))) /\
  Permutation (keys (resolve (map (fun f => (f, g f)) fields))) fields.
Proof.
  intros Hperm. split.
  - unfold keys. rewrite map_map.
    rewrite <- (map_id (resolve _)) at 1. apply map_ext_in.
    intros [f v] Hin. apply (Permutation_in _ Hperm) in Hin.
    apply in_map_iff in Hin as [f' [[= <- <-] _]]. reflexivity.
  - unfold keys.
    replace fields with (map fst (map (fun f => (f, g f)) fields)) at 2.
    + now apply Permutation_map.
    + rewrite map_map. simpl. apply map_id.
Qed.

(** X11.  [resetAllCascades] switches the hints on and then filters, once
    each and in the order the host answers, exactly the fields that are on
    the [alters] list of some parent of the map, each with the allowed
    values that the schema has for it; it makes no other call on the form
    and resolves with one result for each of these fields. *)
Theorem resetAllCascades_filters_each_altered_field_once (w : World H) :
  (forall reads, Permutation (resolve reads) reads) ->
  exists order,
    Permutation order (fieldsToReset cascadeMap) /\
    NoDup order /\
    (forall field,
       In field order <->
       exists alterField cascade,
         In (alterField, cascade) cascadeMap /\ In field (alters cascade)) /\
    resetAllCascades cascadeMap resolve w
    = (Ok (map (fun _ => tt) (fieldsToReset cascadeMap)),
       mkWorld
         (applyFilters
            (map (fun field =>
                    (field,
                     Arr (getAllowedFieldValues (setEnabled true (host w))
                                                field)))
                 order)
            (setEnabled true (host w)))
         (calls w
          ++ map (fun field =>
                    FilterAllowedFieldValues field
                      (Arr (getAllowedFieldValues (setEnabled true (host w))
                                                  field)))
                 order)).
Proof.
  intros Hperm.
  set (h := setEnabled true (host w)).
  set (g := fun field => Arr (getAllowedFieldValues h field)).
  destruct (resolved_reads g (fieldsToReset cascadeMap) (Hperm _))
    as [Hreads Horder].
  exists (keys (resolve (map (fun f => (f, g f)) (fieldsToReset cascadeMap)))).
  split; [exact Horder|]. split; [|split].
  - eapply Permutation_NoDup; [apply Permutation_sym; exact Horder|].
    apply uniq_NoDup.
  - intros field. rewrite <- in_fieldsToReset. split.
    + apply Permutation_in. exact Horder.
    + apply Permutation_in. now apply Permutation_sym.
  - unfold resetAllCascades, Async.bind, Async.read, Async.ret. simpl.
    fold h. change (fun fieldName => (fieldName, Arr (getAllowedFieldValues h
                                                        fieldName)))
      with (fun f => (f, g f)).
    rewrite filterEach_applies. simpl.
    rewrite Hreads at 1 2. unfold filterCalls. now rewrite map_map.
Qed.

(** The laws of a form that reports the filter it was given and keeps the
    filters of the other fields. *)
Hypothesis filter_reported :
  forall field values h,
    getFilteredAllowedFieldValues
      (filterAllowedFieldValues field (Arr values) h) field = values.
Hypothesis filter_frame :
  forall field other values h,
    field <> other ->
    getFilteredAllowedFieldValues
      (filterAllowedFieldValues other values h) field
    = getFilteredAllowedFieldValues h field.

Lemma applyFilters_reported (fieldValues : list (string * Value)) (h : H)
    (field : string) :
  NoDup (keys fieldValues) ->
  (forall values, In (field, Arr values) fieldValues ->
     getFilteredAllowedFieldValues (applyFilters fieldValues h) field
     = values) /\
  (~ In field (keys fieldValues) ->
   getFilteredAllowedFieldValues (applyFilters fieldValues h) field
   = getFilteredAllowedFieldValues h field).
Proof.
  revert h. induction fieldValues as [|[f v] rest IH]; intros h Hnd.
  - split; [intros values [] | reflexivity].
  - inversion Hnd as [|? ? Hfresh Hrest]; subst.
    change (applyFilters ((f, v) :: rest) h)
      with (applyFilters rest (filterAllowedFieldValues f v h)).
    destruct (IH (filterAllowedFieldValues f v h) Hrest) as [Hin Hout].
    split.
    + intros values [[= -> ->]|Hlater].
      * rewrite (Hout Hfresh). apply filter_reported.
      * now apply Hin.
    + intros Hnot. simpl in Hnot. rewrite Hout by tauto.
      apply filter_frame. intros <-. apply Hnot. now left.
Qed.

(** X12.  On a form that reports the filter it was given and keeps the
    filters of the other fields, [resetAllCascades] leaves every field that
    some parent alters with its schema values as the filtered values, and
    leaves the filtered values of every other field as they were. *)
Theorem resetAllCascades_restores_schema_values (w : World H)
    (field : string) :
  (forall reads, Permutation (resolve reads) reads) ->
  (In field (fieldsToReset cascadeMap) ->
   getFilteredAllowedFieldValues
     (host (snd (resetAllCascades cascadeMap resolve w))) field
   = getAllowedFieldValues (setEnabled true (host w)) field) /\
  (~ In field (fieldsToReset cascadeMap) ->
   getFilteredAllowedFieldValues
     (host (snd (resetAllCascades cascadeMap resolve w))) field
   = getFilteredAllowedFieldValues (setEnabled true (host w)) field).
Proof.
  intros Hperm.
  set (h := setEnabled true (host w)).
  set (g := fun field => Arr (getAllowedFieldValues h field)).
  destruct (resolved_reads g (fieldsToReset cascadeMap) (Hperm _))
    as [Hreads Horder].
  unfold resetAllCascades, Async.bind, Async.read, Async.ret. simpl.
  fold h. change (fun fieldName => (fieldName, Arr (getAllowedFieldValues h
                                                      fieldName)))
    with (fun f => (f, g f)).
  rewrite filterEach_applies. simpl.
  set (resolved := resolve (map (fun f => (f, g f))
                                (fieldsToReset cascadeMap))) in *.
  assert (Hnd : NoDup (keys resolved)).
  { eapply Permutation_NoDup; [apply Permutation_sym; exact Horder|].
    apply uniq_NoDup. }
  destruct (applyFilters_reported resolved h field Hnd) as [Hin Hout].
  split.
  - intros Hfield. apply Hin.
    apply (Permutation_in _ (Permutation_sym (Hperm _))).
    apply in_map_iff. now exists field.
  - intros Hfield. apply Hout. intros Hkey. apply Hfield.
    eapply Permutation_in; [exact Horder | exact Hkey].
Qed.

End ResetFacts.

(** ** The validator and its catalog *)

Section CatalogFacts.
Import Js Lodash JsFacts LodashFacts.

Variable RESERVED_FIELD_NAMES : list string.

Lemma in_findings (fieldList : list string) (cascades : CascadeConfiguration)
    (name : string) :
  In name (Spec.findings RESERVED_FIELD_NAMES fieldList cascades) <->
  ~ In name fieldList /\
  (In name (keys cascades) \/
   ~ In name RESERVED_FIELD_NAMES /\
   exists fieldValues innerFields,
     In fieldValues (values cascades) /\
     In innerFields (values fieldValues) /\ In name (keys innerFields)).
Proof.
  unfold Spec.findings. rewrite in_app_iff, filter_In.
  unfold Spec.unknownParent. rewrite negb_true_iff, includes_not_In.
  rewrite in_flat_map. split.
  - intros [[Hk Hout]|[fieldValues [Hfv Hin]]]; [tauto|].
    apply in_flat_map in Hin as [innerFields [Hinner Hin]].
    apply filter_In in Hin as [Hk Hu]. unfold Spec.unknownDependent in Hu.
    apply andb_true_iff in Hu as [Hres Hout].
    apply negb_true_iff, includes_not_In in Hres.
    apply negb_true_iff, includes_not_In in Hout.
    split; [assumption|]. right. split; [assumption|].
    now exists fieldValues, innerFields.
  - intros [Hout [Hk|[Hres [fieldValues [innerFields [Hfv [Hinner Hk]]]]]]];
      [tauto|].
    right. exists fieldValues. split; [assumption|].
    apply in_flat_map. exists innerFields. split; [assumption|].
    apply filter_In. split; [assumption|].
    unfold Spec.unknownDependent.
    rewrite (proj2 (includes_not_In _ _) Hres).
    now rewrite (proj2 (includes_not_In _ _) Hout).
Qed.

(** X13.  A larger catalog never gives more findings: a configuration that
    is valid for a catalog is valid for every catalog that has its fields
    too, and every name reported for the larger catalog is reported for the
    smaller one. *)
Theorem validateCascades_larger_catalog
    (fieldList fieldList' : list string) (cascades : CascadeConfiguration) :
  incl fieldList fieldList' ->
  (validateCascades RESERVED_FIELD_NAMES fieldList cascades = None ->
   validateCascades RESERVED_FIELD_NAMES fieldList' cascades = None) /\
  (forall invalidFields',
     validateCascades RESERVED_FIELD_NAMES fieldList' cascades
     = Some invalidFields' ->
     exists invalidFields,
       validateCascades RESERVED_FIELD_NAMES fieldList cascades
       = Some invalidFields /\
       incl invalidFields' invalidFields).
Proof.
  intros Hincl.
  assert (Hsub : incl (Spec.findings RESERVED_FIELD_NAMES fieldList' cascades)
                      (Spec.findings RESERVED_FIELD_NAMES fieldList cascades)).
  { intros name Hin. apply in_findings in Hin as [Hout Hwhere].
    apply in_findings. split; [|exact Hwhere].
    intros Hknown. apply Hout. now apply Hincl. }
  rewrite !validateCascades_findings.
  destruct (Spec.findings RESERVED_FIELD_NAMES fieldList cascades)
    as [|x l] eqn:Hsmall;
    destruct (Spec.findings RESERVED_FIELD_NAMES fieldList' cascades)
    as [|x' l'] eqn:Hlarge.
  - split; [reflexivity | discriminate].
  - exfalso. apply (Hsub x'). now left.
  - split; [discriminate | discriminate].
  - split; [discriminate|]. intros invalidFields' [= <-].
    eexists. split; [reflexivity | exact Hsub].
Qed.


End CatalogFacts.

(** ** The fields a built service resets *)

Section BuiltReset.
Import Js Lodash JsFacts LodashFacts.

Variable RESERVED_FIELD_NAMES : list string.


End BuiltReset.

(** ** What the option computation and the validator look at *)

Section Frames.
Import Js Lodash JsFacts LodashFacts.

Variable RESERVED_FIELD_NAMES : list string.
Variable FieldOptionsFlags_All : string.
Context {H : Type} {workItemService : WorkItemFormService H}
        {realm : Realm}.
Variable cascadeMap : CascadeMap.
Variable settle : list Task -> list Task.

Lemma runTasks_same_reads (h h' : H) (settled : list Task)
    (fieldValues : FieldOptions) :
  (forall field alterField cascade,
     In (field, (alterField, cascade)) settled ->
     In field (alters cascade) ->
     cascadeOptionsOf FieldOptionsFlags_All h field alterField cascade
     = cascadeOptionsOf FieldOptionsFlags_All h' field alterField cascade) ->
  runTasks FieldOptionsFlags_All h settled fieldValues
  = runTasks FieldOptionsFlags_All h' settled fieldValues.
Proof.
  revert fieldValues.
  induction settled as [|[field [alterField cascade]] rest IH];
    intros fieldValues Hsame; simpl; [reflexivity|].
  destruct (includes (alters cascade) field) eqn:Halters.
  - rewrite <- (Hsame field alterField cascade (or_introl eq_refl)
                  (proj1 (includes_In _ _) Halters)).
    destruct (cascadeOptionsOf FieldOptionsFlags_All h field alterField
                               cascade); [|reflexivity].
    apply IH. intros field' alterField' cascade' Hin. apply Hsame. now right.
  - apply IH. intros field' alterField' cascade' Hin. apply Hsame. now right.
Qed.

(** X16.  The option computation looks at nothing but the values of the
    parents that alter an affected field and the schema values of the
    affected fields: on two forms that agree on these it has the same
    outcome, whatever filters and error the forms carry. *)
Theorem prepareCascadeOptions_reads_parents_and_schema (h h' : H)
    (affectedFields : list string) :
  Permutation (settle (cascadeTasks cascadeMap affectedFields))
              (cascadeTasks cascadeMap affectedFields) ->
  (forall field alterField cascade,
     In field affectedFields -> In (alterField, cascade) cascadeMap ->
     In field (alters cascade) ->
     getFieldValue h alterField = getFieldValue h' alterField /\
     getAllowedFieldValues h field = getAllowedFieldValues h' field) ->
  prepareCascadeOptions FieldOptionsFlags_All cascadeMap settle h
                        affectedFields
  = prepareCascadeOptions FieldOptionsFlags_All cascadeMap settle h'
                          affectedFields.
Proof.
  intros Hperm Hagree. unfold prepareCascadeOptions.
  apply runTasks_same_reads.
  intros field alterField cascade Hin Halters.
  apply (Permutation_in _ Hperm), In_cascadeTasks in Hin as [Hfield Hentry].
  destruct (Hagree field alterField cascade Hfield Hentry Halters)
    as [Hvalue Hschema].
  unfold cascadeOptionsOf. now rewrite Hvalue, Hschema.
Qed.

(** X17.  The reserved names are set aside inside the cascade definitions
    only: [validateCascades] reports a reserved name exactly when the name
    is used as a parent field and the catalog does not have it. *)
Theorem validateCascades_reports_reserved_parents_only
    (fieldList : list string) (cascades : CascadeConfiguration)
    (name : string) :
  In name RESERVED_FIELD_NAMES ->
  (In name
      (match validateCascades RESERVED_FIELD_NAMES fieldList cascades with
       | Some invalidFields => invalidFields
       | None => []
       end) <->
   In name (keys cascades) /\ ~ In name fieldList).
Proof.
  intros Hreserved.
  assert (Hlist : match validateCascades RESERVED_FIELD_NAMES fieldList
                          cascades with
                  | Some invalidFields => invalidFields
                  | None => []
                  end
                  = Spec.findings RESERVED_FIELD_NAMES fieldList cascades).
  { rewrite validateCascades_findings.
    now destruct (Spec.findings RESERVED_FIELD_NAMES fieldList cascades). }
  rewrite Hlist, in_findings. tauto.
Qed.

End Frames.

(** ** The further properties at work on a form *)

Section MoreScenarios.
Import Js Lodash Form Desk.

Ltac distinct_names :=
  repeat (constructor; [simpl; intuition discriminate|]); constructor.

Lemma getAffectedFields_within_witness :
  get twoParentsMap "P2" = Some secondParent /\
  getAffectedFields reserved twoParentsMap "P2" (Some "other") = Ok ["G"] /\
  exists unselected,
    getAffectedFields reserved twoParentsMap "P2" None = Ok unselected /\
    forall field,
      In field ["G"] -> ~ In field reserved /\ In field unselected.
Proof.
  split; [reflexivity|]. split; [reflexivity|].
  exact (getAffectedFields_within_no_value reserved twoParentsMap "P2"
           secondParent (Some "other") ["G"] eq_refl eq_refl).
Defined.

Lemma built_alters_witness :
  NoDup (keys twoDependents) /\
  exists cascade,
    get twoDependentsMap "P" = Some cascade /\
    getAffectedFields reserved twoDependentsMap "P" None
    = Ok (alters cascade) /\
    forall value fields,
      getAffectedFields reserved twoDependentsMap "P" value = Ok fields ->
      incl fields (alters cascade).
Proof.
  assert (Hkeys : NoDup (keys twoDependents)) by distinct_names.
  split; [exact Hkeys|].
  destruct (built_alters_are_the_fields_of_no_value reserved twoDependents
              "P" _ Hkeys (or_introl eq_refl))
    as [cascade [Hget [_ [Hnone [_ Hany]]]]].
  exists cascade. split; [exact Hget|]. split; [exact Hnone | exact Hany].
Defined.



Lemma prepareCascadeOptions_within_witness :
  In ("P2", secondParent) twoParentsMap /\
  cascadeOptionsOf allFlag (host bothOn) "F" "P2" secondParent
  = Ok (Arr ["b"; "c"; "d"]) /\
  forall x, In x ["b"; "c"] -> In x ["b"; "c"; "d"].
Proof.
  assert (Hentry : In ("P2", secondParent) twoParentsMap)
    by (right; left; reflexivity).
  split; [exact Hentry|]. split; [reflexivity|].
  exact (@prepareCascadeOptions_within_every_offer allFlag Form.State
           Form.service realm
           twoParentsMap reversed (host bothOn) ["F"]
           [("F", Arr ["b"; "c"])] "F" "P2" secondParent
           (Arr ["b"; "c"]) (Arr ["b"; "c"; "d"])
           (reversed_permutes _) eq_refl eq_refl Hentry
           (or_introl eq_refl) eq_refl).
Defined.

Lemma nothing_selected (alterField : string) :
  falsy (getFieldValue (host (start [])) alterField) = true.
Proof. reflexivity. Defined.

Lemma prepareCascadeOptions_without_values_witness :
  prepareCascadeOptions allFlag twoParentsMap reversed (host (start [])) ["F"]
  = Ok [("F", Arr ["a"; "b"; "c"; "d"; "e"])] /\
  exists options,
    get [("F", Arr ["a"; "b"; "c"; "d"; "e"])] "F" = Some (Arr options) /\
    forall x,
      In x options <-> In x (getAllowedFieldValues (host (start [])) "F").
Proof.
  split; [reflexivity|].
  exact (@prepareCascadeOptions_without_parent_values allFlag Form.State
           Form.service realm twoParentsMap reversed (host (start [])) ["F"]
           [("F", Arr ["a"; "b"; "c"; "d"; "e"])] "F"
           (reversed_permutes _) eq_refl (or_introl eq_refl)
           (fun alterField _ _ _ => nothing_selected alterField)).
Defined.

Lemma triggering_parent_witness :
  getAffectedFields reserved twoParentsMap "P2"
                    (getFieldValue (host secondElsewhere) "P2") = Ok ["G"] /\
  exists offer,
    cascadeOptionsOf allFlag (host secondElsewhere) "G" "P2" secondParent
    = Ok offer /\
    (offer = Arr (getAllowedFieldValues (host secondElsewhere) "G") \/
     exists value definition,
       getFieldValue (host secondElsewhere) "P2" = Some value /\
       get (cascades secondParent) value = Some definition /\
       get definition "G" = Some offer).
Proof.
  split; [reflexivity|].
  exact (@triggering_parent_has_an_entry reserved allFlag Form.State
           Form.service realm
           twoParentsMap (host secondElsewhere) "P2" secondParent ["G"] "G"
           eq_refl eq_refl (or_introl eq_refl)).
Defined.


Lemma performCascading_filters_once_witness :
  exists fields,
    filteredFields
      (calls (snd (@performCascading reserved allFlag Form.State Form.service
                     quietHints realm twoDependentsMap reversed "P" firstInvalid)))
    = filteredFields (calls firstInvalid) ++ fields /\
    NoDup fields /\
    incl fields (fieldsToReset twoDependentsMap).
Proof.
  exact (@performCascading_filters_altered_fields_once reserved allFlag
           Form.State Form.service quietHints realm twoDependentsMap reversed
           "P" firstInvalid
           (fun affectedFields => reversed_permutes _)).
Defined.


Lemma backwards_permutes (reads : list (string * Value)) :
  Permutation (backwards reads) reads.
Proof. apply Permutation_sym, Permutation_rev. Defined.

Lemma resetAllCascades_witness :
  exists order,
    Permutation order ["F"; "G"] /\
    calls (snd (@resetAllCascades Desk.State Desk.service Desk.switch twoParentsMap
                  backwards filtered))
    = map (fun field =>
             FilterAllowedFieldValues field
               (Arr (getAllowedFieldValues (setEnabled true (host filtered))
                                           field)))
          order.
Proof.
  destruct (@resetAllCascades_filters_each_altered_field_once Desk.State
              Desk.service Desk.switch twoParentsMap backwards filtered
              backwards_permutes) as [order [Hperm [_ [_ Hrun]]]].
  exists order. split; [exact Hperm|]. now rewrite Hrun.
Defined.

Lemma desk_filter_reported (field : string) (values : list string)
    (d : Desk.State) :
  getFilteredAllowedFieldValues
    (filterAllowedFieldValues field (Arr values) d) field = values.
Proof.
  simpl. unfold filteredValues. simpl.
  now rewrite JsFacts.get_set_same.
Defined.

Lemma desk_filter_frame (field other : string) (values : Value)
    (d : Desk.State) :
  field <> other ->
  getFilteredAllowedFieldValues (filterAllowedFieldValues other values d) field
  = getFilteredAllowedFieldValues d field.
Proof.
  intros Hne. simpl. unfold filteredValues, schemaValues. simpl.
  rewrite JsFacts.get_set_other; [reflexivity | congruence].
Defined.

Lemma resetAllCascades_restores_witness :
  getFilteredAllowedFieldValues (host filtered) "F" = ["b"; "c"] /\
  In "F" (fieldsToReset twoParentsMap) /\
  getFilteredAllowedFieldValues
    (host (snd (@resetAllCascades Desk.State Desk.service Desk.switch
                  twoParentsMap backwards filtered))) "F"
  = ["a"; "b"; "c"; "d"; "e"].
Proof.
  split; [reflexivity|].
  assert (Hin : In "F" (fieldsToReset twoParentsMap)) by (now left).
  split; [exact Hin|].
  exact (proj1 (@resetAllCascades_restores_schema_values Desk.State Desk.service
                  Desk.switch twoParentsMap backwards desk_filter_reported
                  desk_filter_frame filtered "F" backwards_permutes) Hin).
Defined.

Lemma smaller_catalog : incl ["P1"; "P2"; "F"] catalog.
Proof. intros x [<-|[<-|[<-|[]]]]; simpl; tauto. Defined.

Lemma validateCascades_larger_catalog_witness :
  incl ["P1"; "P2"; "F"] catalog /\
  validateCascades reserved ["P1"; "P2"; "F"] twoParents = Some ["G"] /\
  validateCascades reserved catalog twoParents = None /\
  forall invalidFields',
    validateCascades reserved catalog ghostConfiguration
    = Some invalidFields' ->
    exists invalidFields,
      validateCascades reserved ["P1"; "P2"; "F"] ghostConfiguration
      = Some invalidFields /\
      incl invalidFields' invalidFields.
Proof.
  split; [exact smaller_catalog|]. split; [reflexivity|].
  split; [reflexivity|].
  exact (proj2 (validateCascades_larger_catalog reserved ["P1"; "P2"; "F"]
                  catalog ghostConfiguration smaller_catalog)).
Defined.



Lemma same_parents (field alterField : string) (cascade : ICascade) :
  In field ["F"] -> In (alterField, cascade) twoParentsMap ->
  In field (alters cascade) ->
  getFieldValue (host bothOn) alterField
  = getFieldValue (form (host filtered)) alterField /\
  getAllowedFieldValues (host bothOn) field
  = getAllowedFieldValues (form (host filtered)) field.
Proof.
  intros [<-|[]] [[= <- <-]|[[= <- <-]|[]]] _; split; reflexivity.
Defined.

Lemma prepareCascadeOptions_reads_witness :
  getFilteredAllowedFieldValues (host bothOn) "F"
  <> getFilteredAllowedFieldValues (form (host filtered)) "F" /\
  prepareCascadeOptions allFlag twoParentsMap reversed (host bothOn) ["F"]
  = prepareCascadeOptions allFlag twoParentsMap reversed
      (form (host filtered)) ["F"].
Proof.
  split; [discriminate|].
  exact (@prepareCascadeOptions_reads_parents_and_schema allFlag Form.State
           Form.service realm twoParentsMap reversed (host bothOn)
           (form (host filtered)) ["F"] (reversed_permutes _) same_parents).
Defined.

Lemma tip_is_reserved : In "tip" reserved.
Proof. now left. Defined.

Lemma validateCascades_reserved_witness :
  In "tip" reserved /\
  validateCascades reserved catalog ghostConfiguration
  = Some ["Ghost"; "Ghost"; "Ghost"] /\
  (In "tip"
      (match validateCascades reserved catalog ghostConfiguration with
       | Some invalidFields => invalidFields
       | None => []
       end) <->
   In "tip" (keys ghostConfiguration) /\ ~ In "tip" catalog) /\
  (In "tip"
      (match validateCascades reserved catalog
               [("tip", [("x", [("tip", Str "text")])])] with
       | Some invalidFields => invalidFields
       | None => []
       end) <->
   In "tip" (keys [("tip", [("x", [("tip", Str "text")])])])
   /\ ~ In "tip" catalog).
Proof.
  split; [exact tip_is_reserved|]. split; [reflexivity|]. split.
  - exact (validateCascades_reports_reserved_parents_only reserved catalog
             ghostConfiguration "tip" tip_is_reserved).
  - exact (validateCascades_reports_reserved_parents_only reserved catalog
             [("tip", [("x", [("tip", Str "text")])])] "tip" tip_is_reserved).
Defined.

End MoreScenarios.
